(** * The shader compiler driver ([src/compiler/src/main.cpp])

    A shallow embedding of the command-line front end that reads GLSL text
    from a file or from standard input, calls shaderc's [CompileGlslToSpv]
    and writes the SPIR-V words to standard output.

    The external library is a black box: it is a value of the record
    [Shaderc] and every statement quantifies over it.  The file system, the
    contents of standard input, the platform ([_WIN32] or not) and the byte
    order of the machine are the other inputs of a run. *)

From Stdlib Require Import List String Ascii ZArith Bool Arith Lia.
From Stdlib Require Import DecimalString.
Import ListNotations.

Local Open Scope string_scope.
Local Open Scope nat_scope.

(** ** The types of shaderc used by the driver *)

Inductive shaderc_shader_kind : Type :=
| shaderc_vertex_shader
| shaderc_fragment_shader
| shaderc_compute_shader
| shaderc_geometry_shader
| shaderc_tess_control_shader
| shaderc_tess_evaluation_shader
| shaderc_glsl_infer_from_source.

Inductive shaderc_optimization_level : Type :=
| shaderc_optimization_level_zero
| shaderc_optimization_level_size
| shaderc_optimization_level_performance.

(** [shaderc::CompileOptions]: the driver only ever touches the optimization
    level; a default-constructed object has none set. *)
Record CompileOptions : Type := {
  optimization_level : option shaderc_optimization_level
}.

Definition default_CompileOptions : CompileOptions :=
  {| optimization_level := None |}.

Definition SetOptimizationLevel (options : CompileOptions)
    (level : shaderc_optimization_level) : CompileOptions :=
  {| optimization_level := Some level |}.

(** [shaderc::SpvCompilationResult]: the status (an enumerator, kept as the
    integer it converts to), the error text and the 32-bit words between
    [cbegin()] and [cend()]. *)
Record SpvCompilationResult : Type := {
  GetCompilationStatus : Z;
  GetErrorMessage : string;
  spirv_words : list Z
}.

(** The library itself: the enumerator the status is compared with and the
    compile entry point (source text, stage, input name, options). *)
Record Shaderc : Type := {
  shaderc_compilation_status_success : Z;
  CompileGlslToSpv :
    string -> shaderc_shader_kind -> string -> CompileOptions ->
    SpvCompilationResult
}.

(** ** [getShaderKind] *)

Definition getShaderKind (type : string) : shaderc_shader_kind :=
  if (type =? "vertex")%string then shaderc_vertex_shader
  else if (type =? "fragment")%string then shaderc_fragment_shader
  else if (type =? "compute")%string then shaderc_compute_shader
  else if (type =? "geometry")%string then shaderc_geometry_shader
  else if (type =? "tess_control")%string then shaderc_tess_control_shader
  else if (type =? "tess_evaluation")%string then shaderc_tess_evaluation_shader
  else shaderc_glsl_infer_from_source.

(** ** Argument parsing *)

(** The four locals of [main] that the parse loop assigns. *)
Record Options : Type := {
  shaderKind : shaderc_shader_kind;
  optimize : bool;
  inputName : string;
  inputFile : string
}.

Definition initial_Options : Options :=
  {| shaderKind := shaderc_glsl_infer_from_source;
     optimize := false;
     inputName := "shader";
     inputFile := "" |}.

Definition set_shaderKind (o : Options) (k : shaderc_shader_kind) : Options :=
  {| shaderKind := k; optimize := optimize o;
     inputName := inputName o; inputFile := inputFile o |}.

Definition set_optimize (o : Options) (b : bool) : Options :=
  {| shaderKind := shaderKind o; optimize := b;
     inputName := inputName o; inputFile := inputFile o |}.

Definition set_inputName (o : Options) (s : string) : Options :=
  {| shaderKind := shaderKind o; optimize := optimize o;
     inputName := s; inputFile := inputFile o |}.

Definition set_inputFile (o : Options) (s : string) : Options :=
  {| shaderKind := shaderKind o; optimize := optimize o;
     inputName := inputName o; inputFile := s |}.

(** [argv[i]] for an index inside the array. *)
Definition arg_at (argv : list string) (i : nat) : string := nth i argv "".

(** One pass through the body of the [for] loop, followed by its [i++]:
    a value-taking flag advances [i] twice (the [++i] that fetches the value
    and the loop's own increment). *)
Definition loop_body (argv : list string) (st : nat * Options) : nat * Options :=
  let (i, o) := st in
  let argc := List.length argv in
  let arg := arg_at argv i in
  if (arg =? "-t")%string && (i + 1 <? argc) then
    (i + 2, set_shaderKind o (getShaderKind (arg_at argv (i + 1))))
  else if (arg =? "-O")%string then
    (i + 1, set_optimize o true)
  else if (arg =? "-n")%string && (i + 1 <? argc) then
    (i + 2, set_inputName o (arg_at argv (i + 1)))
  else if (arg =? "-f")%string && (i + 1 <? argc) then
    (i + 2, set_inputFile o (arg_at argv (i + 1)))
  else
    (i + 1, o).

(** The loop [for (i = ..; i < argc; i++)], with a bound on the number of
    iterations; [length argv] iterations always suffice
    (see [parse_loop_fuel]). *)
Fixpoint parse_loop (fuel : nat) (argv : list string) (st : nat * Options)
    : nat * Options :=
  match fuel with
  | O => st
  | S fuel' =>
      if fst st <? List.length argv
      then parse_loop fuel' argv (loop_body argv st)
      else st
  end.

Definition parseArgs (argv : list string) : Options :=
  snd (parse_loop (List.length argv) argv (1, initial_Options)).

(** [loop_head argv k]: the loop reaches [i = k] at the top of an iteration,
    that is, [argv[k]] is examined as a flag and is not the value that a
    preceding [-t], [-n] or [-f] consumed. *)
Fixpoint visited (fuel : nat) (argv : list string) (i k : nat) : bool :=
  match fuel with
  | O => false
  | S fuel' =>
      (i <? List.length argv) &&
      ((i =? k) ||
       visited fuel' argv (fst (loop_body argv (i, initial_Options))) k)
  end.

Definition loop_head (argv : list string) (k : nat) : bool :=
  visited (List.length argv) argv 1 k.

(** ** The process environment and its observable state *)

Inductive ByteOrder : Type := LittleEndian | BigEndian.

(** What a run is given: the build target ([_WIN32] defined or not), the
    byte order of [uint32_t] in memory, the file system as seen by
    [std::ifstream] ([None]: the stream is in a failed state after
    construction; [Some s]: the text that [rdbuf()] delivers), the text
    waiting on standard input, and the compiler library. *)
Record Env : Type := {
  _WIN32 : bool;
  byte_order : ByteOrder;
  ifstream_contents : string -> option string;
  cin_contents : string;
  shaderc : Shaderc
}.

Inductive cerr_event : Type :=
| cerr_put (s : string)
| cerr_flushed.

Record CompileCall : Type := {
  call_source : string;
  call_kind : shaderc_shader_kind;
  call_name : string;
  call_options : CompileOptions
}.

(** The state that [main] changes: the unread part of standard input, the
    translation mode of standard output, the bytes that reached it, what was
    sent to [std::cerr] (in order), the paths handed to [std::ifstream] and
    the calls made to the compiler (both in order). *)
Record World : Type := {
  cin_unread : string;
  stdout_text_mode : bool;
  stdout_bytes : list Z;
  cerr_log : list cerr_event;
  files_opened : list string;
  compiler_calls : list CompileCall
}.

(** At start-up standard output translates line ends only on Windows. *)
Definition initial_World (env : Env) : World :=
  {| cin_unread := cin_contents env;
     stdout_text_mode := _WIN32 env;
     stdout_bytes := [];
     cerr_log := [];
     files_opened := [];
     compiler_calls := [] |}.

(** The characters written to the diagnostic stream. *)
Fixpoint cerr_text_of (l : list cerr_event) : string :=
  match l with
  | [] => ""
  | cerr_put s :: l' => s ++ cerr_text_of l'
  | cerr_flushed :: l' => cerr_text_of l'
  end.

Definition cerr_text (w : World) : string := cerr_text_of (cerr_log w).

(** Nothing was written to the diagnostic stream after its last flush. *)
Definition cerr_is_flushed (w : World) : bool :=
  match rev (cerr_log w) with
  | cerr_put _ :: _ => false
  | _ => true
  end.

(** ** Serialisation of the SPIR-V words *)

(** Byte [k] (0 is the least significant) of a 32-bit word. *)
Definition word_byte (w : Z) (k : Z) : Z := Z.land (Z.shiftr w (8 * k)) 255.

(** The four bytes of a [uint32_t] as they lie in memory. *)
Definition word_bytes (bo : ByteOrder) (w : Z) : list Z :=
  match bo with
  | LittleEndian => [word_byte w 0; word_byte w 1; word_byte w 2; word_byte w 3]
  | BigEndian => [word_byte w 3; word_byte w 2; word_byte w 1; word_byte w 0]
  end.

(** The [spirv.size() * sizeof(uint32_t)] bytes starting at [spirv.data()]. *)
Definition vector_bytes (bo : ByteOrder) (spirv : list Z) : list Z :=
  flat_map (word_bytes bo) spirv.

(** Reading the bytes back as words, for the round trip. *)
Definition word_of_bytes (bo : ByteOrder) (b0 b1 b2 b3 : Z) : Z :=
  match bo with
  | LittleEndian => b0 + 256 * b1 + 65536 * b2 + 16777216 * b3
  | BigEndian => b3 + 256 * b2 + 65536 * b1 + 16777216 * b0
  end%Z.

Fixpoint words_of_bytes (bo : ByteOrder) (bs : list Z) : list Z :=
  match bs with
  | b0 :: b1 :: b2 :: b3 :: bs' => word_of_bytes bo b0 b1 b2 b3 :: words_of_bytes bo bs'
  | _ => []
  end.

(** What a text-mode stream does to the bytes it is given: every line feed
    becomes carriage return, line feed. *)
Definition text_mode_translate (bs : list Z) : list Z :=
  flat_map (fun b => if (b =? 10)%Z then [13; 10]%Z else [b]) bs.

(** ** A small monad for [main]: state plus early [return] *)

Inductive Step (A : Type) : Type :=
| Next (a : A)
| Returned (code : Z).
Arguments Next {A} a.
Arguments Returned {A} code.

Definition M (A : Type) : Type := World -> Step A * World.

Definition pure {A} (a : A) : M A := fun w => (Next a, w).

Definition bind {A B} (c : M A) (k : A -> M B) : M B :=
  fun w =>
    match c w with
    | (Next a, w') => k a w'
    | (Returned code, w') => (Returned code, w')
    end.

(** [return code;] inside [main]. *)
Definition return_ {A} (code : Z) : M A := fun w => (Returned code, w).

Notation "x <- c ;; k" := (bind c (fun x => k))
  (at level 61, c at next level, right associativity).
Notation "c ;; k" := (bind c (fun _ => k))
  (at level 61, right associativity).

(** [_setmode(_fileno(stdout), _O_BINARY)] *)
Definition setmode_stdout_binary : M unit :=
  fun w =>
    (Next tt,
     {| cin_unread := cin_unread w; stdout_text_mode := false;
        stdout_bytes := stdout_bytes w; cerr_log := cerr_log w;
        files_opened := files_opened w; compiler_calls := compiler_calls w |}).

Definition cerr_event_add (e : cerr_event) : M unit :=
  fun w =>
    (Next tt,
     {| cin_unread := cin_unread w; stdout_text_mode := stdout_text_mode w;
        stdout_bytes := stdout_bytes w; cerr_log := cerr_log w ++ [e];
        files_opened := files_opened w; compiler_calls := compiler_calls w |}).

(** [std::cerr << s] *)
Definition cerr_write (s : string) : M unit := cerr_event_add (cerr_put s).

(** [std::cerr.flush()] *)
Definition cerr_flush : M unit := cerr_event_add cerr_flushed.

Definition newline : string := String (ascii_of_nat 10) EmptyString.
Definition double_quote : string := String (ascii_of_nat 34) EmptyString.

(** [std::cerr << std::endl]: a line feed, then a flush. *)
Definition cerr_endl : M unit := cerr_write newline ;; cerr_flush.

(** [operator<<] on an enumerator prints the integer in decimal. *)
Definition decimal (z : Z) : string := NilZero.string_of_int (Z.to_int z).

(** [std::ifstream file(path)] followed by the test [!file] and, when the
    stream is good, [buffer << file.rdbuf()]. *)
Definition ifstream_open (env : Env) (path : string) : M (option string) :=
  fun w =>
    (Next (ifstream_contents env path),
     {| cin_unread := cin_unread w; stdout_text_mode := stdout_text_mode w;
        stdout_bytes := stdout_bytes w; cerr_log := cerr_log w;
        files_opened := files_opened w ++ [path];
        compiler_calls := compiler_calls w |}).

(** [buffer << std::cin.rdbuf()]: everything up to end of stream. *)
Definition cin_read_all : M string :=
  fun w =>
    (Next (cin_unread w),
     {| cin_unread := ""; stdout_text_mode := stdout_text_mode w;
        stdout_bytes := stdout_bytes w; cerr_log := cerr_log w;
        files_opened := files_opened w; compiler_calls := compiler_calls w |}).

(** [compiler.CompileGlslToSpv(source, kind, name, options)] *)
Definition compile (env : Env) (source : string) (kind : shaderc_shader_kind)
    (name : string) (options : CompileOptions) : M SpvCompilationResult :=
  fun w =>
    (Next (CompileGlslToSpv (shaderc env) source kind name options),
     {| cin_unread := cin_unread w; stdout_text_mode := stdout_text_mode w;
        stdout_bytes := stdout_bytes w; cerr_log := cerr_log w;
        files_opened := files_opened w;
        compiler_calls := compiler_calls w ++
          [{| call_source := source; call_kind := kind;
              call_name := name; call_options := options |}] |}).

(** [std::cout.write(data, n)] *)
Definition cout_write (bs : list Z) : M unit :=
  fun w =>
    (Next tt,
     {| cin_unread := cin_unread w; stdout_text_mode := stdout_text_mode w;
        stdout_bytes := stdout_bytes w ++
          (if stdout_text_mode w then text_mode_translate bs else bs);
        cerr_log := cerr_log w;
        files_opened := files_opened w; compiler_calls := compiler_calls w |}).

(** ** [main] *)

Definition main (env : Env) (argv : list string) : M unit :=
  (if _WIN32 env then setmode_stdout_binary else pure tt) ;;
  let o := parseArgs argv in
  shaderSource <-
    (if negb (inputFile o =? "")%string then
       file <- ifstream_open env (inputFile o) ;;
       match file with
       | None =>
           cerr_write "Error: Could not open file: " ;;
           cerr_write (inputFile o) ;;
           cerr_endl ;;
           return_ 1%Z
       | Some contents => pure contents
       end
     else
       cin_read_all) ;;
  if (shaderSource =? "")%string then
    cerr_write "Error: No shader source provided" ;;
    cerr_endl ;;
    return_ 1%Z
  else
    let options :=
      if optimize o
      then SetOptimizationLevel default_CompileOptions
             shaderc_optimization_level_performance
      else default_CompileOptions in
    result <- compile env shaderSource (shaderKind o) (inputName o) options ;;
    let status := GetCompilationStatus result in
    if negb (status =? shaderc_compilation_status_success (shaderc env))%Z then
      cerr_write "Compilation error (status code: " ;;
      cerr_write (decimal status) ;;
      cerr_write ")" ;;
      cerr_endl ;;
      cerr_write ("Error message: " ++ double_quote) ;;
      cerr_write (GetErrorMessage result) ;;
      cerr_write double_quote ;;
      cerr_endl ;;
      cerr_flush ;;
      return_ 1%Z
    else
      let spirv := spirv_words result in
      cout_write (vector_bytes (byte_order env) spirv) ;;
      return_ 0%Z.

(** The exit code and the final state of a run. *)
Definition run_main (env : Env) (argv : list string) : Z * World :=
  match main env argv (initial_World env) with
  | (Returned code, w) => (code, w)
  | (Next _, w) => (0%Z, w)
  end.

Definition exit_code (env : Env) (argv : list string) : Z :=
  fst (run_main env argv).

Definition final_World (env : Env) (argv : list string) : World :=
  snd (run_main env argv).

(** ** The parse loop seen as a recursion over the remaining arguments *)

(** The same loop, written over the arguments from [argv[i]] on.  It is
    equal to [parse_loop] ([parse_loop_list]); the proofs use this form. *)
Fixpoint parse_list (o : Options) (args : list string) : Options :=
  match args with
  | [] => o
  | arg :: rest =>
      match rest with
      | [] => if (arg =? "-O")%string then set_optimize o true else o
      | value :: rest' =>
          if (arg =? "-t")%string then
            parse_list (set_shaderKind o (getShaderKind value)) rest'
          else if (arg =? "-O")%string then
            parse_list (set_optimize o true) rest
          else if (arg =? "-n")%string then
            parse_list (set_inputName o value) rest'
          else if (arg =? "-f")%string then
            parse_list (set_inputFile o value) rest'
          else
            parse_list o rest
      end
  end.

Definition takes_value (arg : string) : bool :=
  ((arg =? "-t") || (arg =? "-n") || (arg =? "-f"))%string.

Definition recognised (arg : string) : bool :=
  ((arg =? "-t") || (arg =? "-O") || (arg =? "-n") || (arg =? "-f"))%string.

(** A run of arguments in which every value-taking flag met by the loop
    finds its value inside the run: the loop leaves it exactly at its end. *)
Fixpoint complete (args : list string) : bool :=
  match args with
  | [] => true
  | arg :: rest =>
      if takes_value arg then
        match rest with
        | [] => false
        | _ :: rest' => complete rest'
        end
      else complete rest
  end.

(** The arguments with every [-f] that the loop examines left out, together
    with the value it consumes (a trailing [-f] without a value too).  Only
    used to say what "[-f] omitted" means; the values of [-t] and [-n] are
    kept as they are, whatever their text. *)
Fixpoint omit_f (args : list string) : list string :=
  match args with
  | [] => []
  | arg :: rest =>
      match rest with
      | [] => if (arg =? "-f")%string then [] else [arg]
      | value :: rest' =>
          if (arg =? "-f")%string then omit_f rest'
          else if ((arg =? "-t") || (arg =? "-n"))%string then
            arg :: value :: omit_f rest'
          else arg :: omit_f rest
      end
  end.

(** ** A concrete library and two concrete environments *)

Definition demo_shaderc : Shaderc :=
  {| shaderc_compilation_status_success := 0%Z;
     CompileGlslToSpv := fun source kind name options =>
       if (source =? "void main(")%string then
         {| GetCompilationStatus := 2%Z;
            GetErrorMessage := "shader:1: error: syntax error";
            spirv_words := [] |}
       else
         {| GetCompilationStatus := 0%Z;
            GetErrorMessage := "";
            spirv_words := [119734787; 65536; 10]%Z |} |}.

Definition demo_env : Env :=
  {| _WIN32 := true;
     byte_order := LittleEndian;
     ifstream_contents := fun path =>
       if (path =? "empty.vert")%string then Some ""
       else if (path =? "bad.vert")%string then Some "void main("
       else if (path =? "tri.vert")%string then Some "void main(){}"
       else None;
     cin_contents := "void main(){}";
     shaderc := demo_shaderc |}.

Definition demo_env_closed_stdin : Env :=
  {| _WIN32 := false;
     byte_order := BigEndian;
     ifstream_contents := ifstream_contents demo_env;
     cin_contents := "";
     shaderc := demo_shaderc |}.

(** An environment whose standard input differs from every file. *)
Definition demo_env_piped : Env :=
  {| _WIN32 := true;
     byte_order := LittleEndian;
     ifstream_contents := ifstream_contents demo_env;
     cin_contents := "#version 450";
     shaderc := demo_shaderc |}.

(** The result the library gave for a recorded call. *)
Definition call_result (env : Env) (c : CompileCall) : SpvCompilationResult :=
  CompileGlslToSpv (shaderc env)
    (call_source c) (call_kind c) (call_name c) (call_options c).

(** ** The run in closed form *)

(** The text [main] ends up with in [shaderSource], when it gets that far:
    the file's text when a path was given ([None] when the stream could not
    be opened), all of standard input otherwise. *)
Definition source_of (env : Env) (o : Options) : option string :=
  if negb (inputFile o =? "")%string
  then ifstream_contents env (inputFile o)
  else Some (cin_contents env).

(** The call [main] makes for a given source text. *)
Definition call_of (o : Options) (shaderSource : string) : CompileCall :=
  {| call_source := shaderSource;
     call_kind := shaderKind o;
     call_name := inputName o;
     call_options :=
       if optimize o
       then SetOptimizationLevel default_CompileOptions
              shaderc_optimization_level_performance
       else default_CompileOptions |}.

Definition open_failure_log (path : string) : list cerr_event :=
  [cerr_put "Error: Could not open file: "; cerr_put path;
   cerr_put newline; cerr_flushed].

Definition no_source_log : list cerr_event :=
  [cerr_put "Error: No shader source provided"; cerr_put newline; cerr_flushed].

Definition compile_error_log (result : SpvCompilationResult) : list cerr_event :=
  [cerr_put "Compilation error (status code: ";
   cerr_put (decimal (GetCompilationStatus result));
   cerr_put ")"; cerr_put newline; cerr_flushed;
   cerr_put ("Error message: " ++ double_quote);
   cerr_put (GetErrorMessage result);
   cerr_put double_quote; cerr_put newline; cerr_flushed;
   cerr_flushed].

(** The final state of a run, given what it wrote and whom it called. *)
Definition end_World (env : Env) (o : Options) (out : list Z)
    (err : list cerr_event) (calls : list CompileCall) : World :=
  let from_file := negb (inputFile o =? "")%string in
  {| cin_unread := if from_file then cin_contents env else "";
     stdout_text_mode := false;
     stdout_bytes := out;
     cerr_log := err;
     files_opened := if from_file then [inputFile o] else [];
     compiler_calls := calls |}.

(** What [run_main] evaluates to ([run_main_eq]). *)
Definition run_summary (env : Env) (o : Options) : Z * World :=
  match source_of env o with
  | None => (1%Z, end_World env o [] (open_failure_log (inputFile o)) [])
  | Some shaderSource =>
      if (shaderSource =? "")%string then
        (1%Z, end_World env o [] no_source_log [])
      else
        let call := call_of o shaderSource in
        let result := call_result env call in
        if (GetCompilationStatus result
            =? shaderc_compilation_status_success (shaderc env))%Z
        then (0%Z, end_World env o
                     (vector_bytes (byte_order env) (spirv_words result))
                     [] [call])
        else (1%Z, end_World env o [] (compile_error_log result) [call])
  end.

(** Unfold a run of [main] down to the tests it makes. *)
Ltac run_norm :=
  cbv beta iota zeta delta
    [main bind pure return_ cerr_endl cerr_write cerr_flush cerr_event_add
     setmode_stdout_binary ifstream_open cin_read_all compile cout_write
     initial_World cin_unread stdout_text_mode stdout_bytes cerr_log
     files_opened compiler_calls negb app run_main run_summary source_of
     end_World call_of call_result open_failure_log no_source_log
     compile_error_log call_source call_kind call_name call_options].

(** * Examples *)

Example parseArgs_ex1 :
  parseArgs ["glslc"; "-t"; "compute"; "-O"; "-f"; "a.comp"; "-n"; "blur"]
  = {| shaderKind := shaderc_compute_shader; optimize := true;
       inputName := "blur"; inputFile := "a.comp" |}.
Proof. reflexivity. Qed.

Example loop_head_ex1 :
  map (loop_head ["glslc"; "-n"; "-O"; "-x"; "-t"]) [0; 1; 2; 3; 4; 5]
  = [false; true; false; true; true; false].
Proof. reflexivity. Qed.

Example decimal_ex :
  decimal 2 = "2" /\ decimal 0 = "0" /\ decimal 10 = "10".
Proof. repeat split. Qed.

(** Why the stream mode matters: the word 10 contains a line-feed byte. *)
Example text_mode_ex :
  text_mode_translate (vector_bytes LittleEndian [10%Z])
  = [13; 10; 0; 0; 0]%Z.
Proof. reflexivity. Qed.

Example run_main_ex_success :
  run_main demo_env ["glslc"; "-f"; "tri.vert"]
  = (0%Z,
     {| cin_unread := "void main(){}"; stdout_text_mode := false;
        stdout_bytes := [3; 2; 35; 7; 0; 0; 1; 0; 10; 0; 0; 0]%Z;
        cerr_log := [];
        files_opened := ["tri.vert"];
        compiler_calls :=
          [{| call_source := "void main(){}";
              call_kind := shaderc_glsl_infer_from_source;
              call_name := "shader";
              call_options := default_CompileOptions |}] |}).
Proof. reflexivity. Qed.

Example run_main_ex_failure :
  exit_code demo_env ["glslc"; "-f"; "bad.vert"; "-n"; "bad"] = 1%Z /\
  cerr_text (final_World demo_env ["glslc"; "-f"; "bad.vert"; "-n"; "bad"])
  = "Compilation error (status code: 2)" ++ newline ++
    "Error message: " ++ double_quote ++ "shader:1: error: syntax error"
    ++ double_quote ++ newline.
Proof. split; reflexivity. Qed.

(** * The parse loop *)

Section ParseLoop.

Lemma skipn_nth_cons (l : list string) (i : nat) :
  i < List.length l -> skipn i l = arg_at l i :: skipn (S i) l.
Proof.
  unfold arg_at. revert i.
  induction l as [|a l IH]; intros [|i] Hi; simpl in *; try lia; auto.
  apply IH. lia.
Qed.

Lemma skipn_beyond (l : list string) (i : nat) :
  List.length l <= i -> skipn i l = [].
Proof. apply skipn_all2. Qed.

Lemma parse_list_single (o : Options) (arg : string) :
  parse_list o [arg] = if (arg =? "-O")%string then set_optimize o true else o.
Proof. reflexivity. Qed.

Lemma parse_list_cons2 (o : Options) (arg value : string) (rest' : list string) :
  parse_list o (arg :: value :: rest') =
  if (arg =? "-t")%string then
    parse_list (set_shaderKind o (getShaderKind value)) rest'
  else if (arg =? "-O")%string then
    parse_list (set_optimize o true) (value :: rest')
  else if (arg =? "-n")%string then
    parse_list (set_inputName o value) rest'
  else if (arg =? "-f")%string then
    parse_list (set_inputFile o value) rest'
  else
    parse_list o (value :: rest').
Proof. reflexivity. Qed.

(** The index loop and the list recursion compute the same options, and the
    loop stops with [i = argc] (or where it started, beyond the end). *)
Lemma parse_loop_list (fuel : nat) (argv : list string) :
  forall (i : nat) (o : Options),
    List.length argv <= fuel + i ->
    parse_loop fuel argv (i, o)
    = (Nat.max i (List.length argv), parse_list o (skipn i argv)).
Proof.
  induction fuel as [|fuel IH]; intros i o Hfuel.
  - cbn [parse_loop]. rewrite skipn_beyond by lia. cbn [parse_list].
    f_equal. lia.
  - cbn [parse_loop fst].
    destruct (i <? List.length argv) eqn:Hi.
    + apply Nat.ltb_lt in Hi.
      rewrite (skipn_nth_cons argv i Hi).
      unfold loop_body.
      replace (i + 1) with (S i) by lia. replace (i + 2) with (S (S i)) by lia.
      set (arg := arg_at argv i).
      destruct (S i <? List.length argv) eqn:Hi1.
      * apply Nat.ltb_lt in Hi1.
        rewrite (skipn_nth_cons argv (S i) Hi1).
        rewrite !andb_true_r, parse_list_cons2.
        destruct (arg =? "-t")%string;
          [|destruct (arg =? "-O")%string;
            [|destruct (arg =? "-n")%string;
              [|destruct (arg =? "-f")%string]]];
          rewrite IH by lia;
          try rewrite (skipn_nth_cons argv (S i) Hi1);
          (f_equal; lia).
      * apply Nat.ltb_ge in Hi1.
        rewrite !andb_false_r.
        rewrite (skipn_beyond argv (S i)) by lia.
        rewrite parse_list_single.
        destruct (arg =? "-O")%string;
          rewrite IH by lia;
          rewrite (skipn_beyond argv (S i)) by lia;
          cbn [parse_list]; (f_equal; lia).
    + apply Nat.ltb_ge in Hi.
      rewrite skipn_beyond by lia. cbn [parse_list]. f_equal. lia.
Qed.

(** [length argv] iterations are enough: more fuel changes nothing. *)
Lemma parse_loop_fuel (fuel : nat) (argv : list string) (i : nat) (o : Options) :
  List.length argv <= fuel + i ->
  parse_loop fuel argv (i, o) = parse_loop (List.length argv + fuel) argv (i, o).
Proof.
  intros H. rewrite !parse_loop_list by lia. reflexivity.
Qed.

(** The loop runs to its end: it stops with [i] no longer below [argc]. *)
Lemma parse_loop_exits (argv : list string) (o : Options) :
  List.length argv <= fst (parse_loop (List.length argv) argv (1, o)).
Proof.
  rewrite parse_loop_list by lia. cbn [fst]. lia.
Qed.

Lemma parseArgs_list (argv : list string) :
  parseArgs argv = parse_list initial_Options (tl argv).
Proof.
  unfold parseArgs. rewrite parse_loop_list by lia.
  simpl. destruct argv; reflexivity.
Qed.

(** How far one iteration moves [i]; the options play no part in it. *)
Lemma loop_body_fst (argv : list string) (i : nat) (o : Options) :
  fst (loop_body argv (i, o))
  = if takes_value (arg_at argv i) && (S i <? List.length argv)
    then S (S i) else S i.
Proof.
  unfold loop_body, takes_value.
  replace (i + 1) with (S i) by lia. replace (i + 2) with (S (S i)) by lia.
  destruct (S i <? List.length argv);
    rewrite ?andb_true_r, ?andb_false_r;
    destruct (arg_at argv i =? "-t")%string eqn:Et; try reflexivity;
    destruct (arg_at argv i =? "-O")%string eqn:EO; try reflexivity;
    destruct (arg_at argv i =? "-n")%string eqn:En; try reflexivity;
    destruct (arg_at argv i =? "-f")%string eqn:Ef; try reflexivity.
  all: apply String.eqb_eq in EO; rewrite EO in *; discriminate.
Qed.

Lemma visited_range (fuel : nat) (argv : list string) (k : nat) :
  forall i, visited fuel argv i k = true -> i <= k < List.length argv.
Proof.
  induction fuel as [|fuel IH]; intros i H; cbn [visited] in H.
  - discriminate.
  - apply andb_true_iff in H. destruct H as [Hi H].
    apply Nat.ltb_lt in Hi.
    apply orb_true_iff in H. destruct H as [H|H].
    + apply Nat.eqb_eq in H. lia.
    + apply IH in H. rewrite loop_body_fst in H.
      destruct (takes_value (arg_at argv i) && (S i <? List.length argv)); lia.
Qed.

Lemma loop_head_range (argv : list string) (k : nat) :
  loop_head argv k = true -> 1 <= k < List.length argv.
Proof. apply visited_range. Qed.

Lemma visited_beyond (fuel : nat) (argv : list string) (i k : nat) :
  k < i -> visited fuel argv i k = false.
Proof.
  intros H. destruct (visited fuel argv i k) eqn:E; [|reflexivity].
  apply visited_range in E. lia.
Qed.

Lemma visited_here (fuel : nat) (argv : list string) (i : nat) :
  i < List.length argv -> visited (S fuel) argv i i = true.
Proof.
  intros H. cbn [visited].
  rewrite (proj2 (Nat.ltb_lt _ _) H), Nat.eqb_refl. reflexivity.
Qed.

Lemma arg_at_app (done rest : list string) (a : string) :
  arg_at (done ++ a :: rest) (List.length done) = a.
Proof. unfold arg_at. apply nth_middle. Qed.

(** Position [length pre] of [pre ++ x :: post] is met at the top of an
    iteration exactly when [pre] is [complete]. *)
Lemma visited_complete (n : nat) :
  forall (pre done : list string) (x : string) (post : list string) (fuel : nat),
    List.length pre <= n ->
    List.length pre + 1 + List.length post <= fuel ->
    visited fuel (done ++ pre ++ x :: post)
      (List.length done) (List.length done + List.length pre)
    = complete pre.
Proof.
  induction n as [|n IH]; intros pre done x post fuel Hn Hfuel.
  - destruct pre; [|simpl in Hn; lia].
    destruct fuel; [simpl in Hfuel; lia|].
    cbn [List.length app complete]. rewrite Nat.add_0_r.
    apply visited_here. rewrite length_app. simpl. lia.
  - destruct pre as [|a pre].
    + apply IH; simpl; lia.
    + destruct fuel; [simpl in Hfuel; lia|].
      cbn [visited]. rewrite loop_body_fst.
      cbn [app]. rewrite arg_at_app.
      rewrite !length_app. cbn [List.length]. rewrite !length_app.
      cbn [List.length].
      replace (List.length done <?
               List.length done + S (List.length pre + S (List.length post)))
        with true by (symmetry; apply Nat.ltb_lt; lia).
      replace (S (List.length done) <?
               List.length done + S (List.length pre + S (List.length post)))
        with true by (symmetry; apply Nat.ltb_lt; lia).
      replace (List.length done =? List.length done + S (List.length pre))
        with false by (symmetry; apply Nat.eqb_neq; lia).
      rewrite andb_true_r. cbn [andb orb complete].
      destruct (takes_value a).
      * destruct pre as [|v pre].
        -- apply visited_beyond. simpl. lia.
        -- replace (done ++ a :: (v :: pre) ++ x :: post)%list
             with ((done ++ [a; v]) ++ pre ++ x :: post)%list
             by (rewrite <- app_assoc; reflexivity).
           replace (S (S (List.length done))) with (List.length (done ++ [a; v])%list)
             by (rewrite length_app; simpl; lia).
           replace (List.length done + S (List.length (v :: pre)))
             with (List.length (done ++ [a; v])%list + List.length pre)
             by (rewrite length_app; simpl; lia).
           apply IH; simpl in *; lia.
      * replace (done ++ a :: pre ++ x :: post)%list
          with ((done ++ [a]) ++ pre ++ x :: post)%list
          by (rewrite <- app_assoc; reflexivity).
        replace (S (List.length done)) with (List.length (done ++ [a])%list)
          by (rewrite length_app; simpl; lia).
        replace (List.length done + S (List.length pre))
          with (List.length (done ++ [a])%list + List.length pre)
          by (rewrite length_app; simpl; lia).
        apply IH; simpl in *; lia.
Qed.

Lemma loop_head_splice (prog : string) (pre : list string) (x : string)
    (post : list string) :
  loop_head (prog :: pre ++ x :: post) (S (List.length pre)) = complete pre.
Proof.
  unfold loop_head.
  apply (visited_complete (List.length pre) pre [prog] x post).
  - lia.
  - simpl. rewrite length_app. simpl. lia.
Qed.

(** Every position from 1 on splits the argument vector. *)
Lemma argv_split (argv : list string) (k : nat) :
  1 <= k < List.length argv ->
  exists prog pre post,
    argv = prog :: pre ++ arg_at argv k :: post /\ k = S (List.length pre).
Proof.
  intros Hk. destruct argv as [|prog args]; [simpl in Hk; lia|].
  destruct k as [|k]; [lia|]. simpl in Hk.
  exists prog, (firstn k args), (skipn (S k) args). split.
  - f_equal. change (arg_at (prog :: args) (S k)) with (arg_at args k).
    rewrite <- (skipn_nth_cons args k) by lia.
    symmetry. apply firstn_skipn.
  - rewrite length_firstn. lia.
Qed.

End ParseLoop.

(** * Facts about the parse, stated on the remaining arguments *)

Section ParseList.

(** Induction that follows the loop: it advances by one or by two. *)
Lemma list_pair_ind (P : list string -> Prop) :
  P [] ->
  (forall a, P [a]) ->
  (forall a v l, P l -> P (v :: l) -> P (a :: v :: l)) ->
  forall l, P l.
Proof.
  intros H0 H1 H2 l.
  enough (P l /\ forall a, P (a :: l)) by tauto.
  induction l as [|v l [IHl IHvl]]; split; auto.
Qed.

Lemma flag_cases (a : string) :
  a = "-t" \/ a = "-O" \/ a = "-n" \/ a = "-f" \/ recognised a = false.
Proof.
  unfold recognised.
  destruct (a =? "-t")%string eqn:Et; [apply String.eqb_eq in Et; auto|].
  destruct (a =? "-O")%string eqn:EO; [apply String.eqb_eq in EO; auto|].
  destruct (a =? "-n")%string eqn:En; [apply String.eqb_eq in En; auto|].
  destruct (a =? "-f")%string eqn:Ef; [apply String.eqb_eq in Ef; auto|].
  auto 10.
Qed.

Lemma recognised_false (a : string) :
  recognised a = false ->
  (a =? "-t")%string = false /\ (a =? "-O")%string = false /\
  (a =? "-n")%string = false /\ (a =? "-f")%string = false.
Proof.
  unfold recognised. intros H.
  repeat (apply orb_false_iff in H; destruct H as [H ?]). auto.
Qed.

Lemma takes_value_recognised (a : string) :
  takes_value a = true -> recognised a = true.
Proof.
  unfold takes_value, recognised. intros H.
  destruct (a =? "-t")%string, (a =? "-O")%string, (a =? "-n")%string,
    (a =? "-f")%string; simpl in *; congruence.
Qed.

Lemma takes_value_cases (a : string) :
  takes_value a = true -> a = "-t" \/ a = "-n" \/ a = "-f".
Proof.
  unfold takes_value. intros H.
  apply orb_true_iff in H. destruct H as [H|H];
    [apply orb_true_iff in H; destruct H as [H|H]|];
    apply String.eqb_eq in H; auto.
Qed.

(** One step of the loop, by the kind of argument at its head. *)
Lemma parse_list_O (o : Options) (l : list string) :
  parse_list o ("-O" :: l) = parse_list (set_optimize o true) l.
Proof. destruct l; reflexivity. Qed.

Lemma parse_list_unrecognised (o : Options) (a : string) (l : list string) :
  recognised a = false -> parse_list o (a :: l) = parse_list o l.
Proof.
  intros H. apply recognised_false in H. destruct H as (Ht & HO & Hn & Hf).
  destruct l; cbn [parse_list]; rewrite ?Ht, ?HO, ?Hn, ?Hf; reflexivity.
Qed.

Lemma parse_list_dangling (o : Options) (a : string) :
  takes_value a = true -> parse_list o [a] = o.
Proof.
  intros H. apply takes_value_cases in H.
  destruct H as [->|[->| ->]]; reflexivity.
Qed.

(** A [complete] prefix is parsed on its own. *)
Lemma parse_list_app (pre : list string) :
  forall (o : Options) (rest : list string),
    complete pre = true ->
    parse_list o (pre ++ rest) = parse_list (parse_list o pre) rest.
Proof.
  induction pre as [|a|a v pre IH IHv] using list_pair_ind; intros o rest Hc.
  - reflexivity.
  - cbn [complete] in Hc.
    destruct (flag_cases a) as [->|[->|[->|[->|Ha]]]];
      try discriminate Hc.
    + cbn [app]. rewrite !parse_list_O. reflexivity.
    + cbn [app]. rewrite !(parse_list_unrecognised _ a) by assumption.
      reflexivity.
  - cbn [complete] in Hc.
    destruct (flag_cases a) as [->|[->|[->|[->|Ha]]]];
      cbn [takes_value String.eqb Ascii.eqb Bool.eqb orb] in Hc.
    + cbn [app]. rewrite !parse_list_cons2. cbn. apply IH, Hc.
    + change (("-O" :: v :: pre) ++ rest)%list
        with ("-O" :: (v :: pre) ++ rest)%list.
      rewrite !parse_list_O. apply IHv, Hc.
    + cbn [app]. rewrite !parse_list_cons2. cbn. apply IH, Hc.
    + cbn [app]. rewrite !parse_list_cons2. cbn. apply IH, Hc.
    + assert (Hv : takes_value a = false).
      { destruct (takes_value a) eqn:E; [|reflexivity].
        apply takes_value_recognised in E. congruence. }
      rewrite Hv in Hc.
      change ((a :: v :: pre) ++ rest)%list with (a :: (v :: pre) ++ rest)%list.
      rewrite !(parse_list_unrecognised _ a) by assumption.
      apply IHv, Hc.
Qed.

(** An argument the loop does not recognise changes nothing. *)
Lemma parse_list_skip (o : Options) (pre : list string) (x : string)
    (post : list string) :
  complete pre = true -> recognised x = false ->
  parse_list o (pre ++ x :: post) = parse_list o (pre ++ post).
Proof.
  intros Hc Hx. rewrite !parse_list_app by assumption.
  apply parse_list_unrecognised, Hx.
Qed.

(** A value-taking flag in last position changes nothing. *)
Lemma parse_list_trailing (o : Options) (pre : list string) (x : string) :
  complete pre = true -> takes_value x = true ->
  parse_list o (pre ++ [x]) = parse_list o pre.
Proof.
  intros Hc Hx. rewrite parse_list_app by assumption.
  apply parse_list_dangling, Hx.
Qed.

Lemma set_inputFile_same (o : Options) :
  set_inputFile o (inputFile o) = o.
Proof. destruct o; reflexivity. Qed.

(** [-f] with the empty string assigns [inputFile] the empty string. *)
Lemma parse_list_f_empty (o : Options) (pre post : list string) :
  complete pre = true ->
  parse_list o (pre ++ "-f" :: "" :: post)
  = parse_list (set_inputFile (parse_list o pre) "") post.
Proof.
  intros Hc. rewrite parse_list_app by assumption. reflexivity.
Qed.

(** The loop only ever sets [optimize], and only at a [-O] that it meets at
    the top of an iteration. *)
Lemma optimize_mono (l : list string) :
  forall o, optimize o = true -> optimize (parse_list o l) = true.
Proof.
  induction l as [|a|a v l IH IHv] using list_pair_ind; intros o Ho.
  - exact Ho.
  - rewrite parse_list_single. destruct (a =? "-O")%string; auto.
  - rewrite parse_list_cons2.
    destruct (a =? "-t")%string; [apply IH, Ho|].
    destruct (a =? "-O")%string; [apply IHv; reflexivity|].
    destruct (a =? "-n")%string; [apply IH, Ho|].
    destruct (a =? "-f")%string; [apply IH, Ho|].
    apply IHv, Ho.
Qed.

Lemma optimize_set (l : list string) :
  forall o, optimize (parse_list o l) = true ->
    optimize o = true \/
    exists pre post, l = (pre ++ "-O" :: post)%list /\ complete pre = true.
Proof.
  induction l as [|a|a v l IH IHv] using list_pair_ind; intros o H.
  - auto.
  - rewrite parse_list_single in H.
    destruct (a =? "-O")%string eqn:E; auto.
    apply String.eqb_eq in E. subst a.
    right. exists [], []. auto.
  - destruct (flag_cases a) as [->|[->|[->|[->|Ha]]]].
    + rewrite parse_list_cons2 in H. cbn in H. apply IH in H.
      destruct H as [H|(pre & post & -> & Hc)]; auto.
      right. exists ("-t" :: v :: pre), post. auto.
    + right. exists [], (v :: l). auto.
    + rewrite parse_list_cons2 in H. cbn in H. apply IH in H.
      destruct H as [H|(pre & post & -> & Hc)]; auto.
      right. exists ("-n" :: v :: pre), post. auto.
    + rewrite parse_list_cons2 in H. cbn in H. apply IH in H.
      destruct H as [H|(pre & post & -> & Hc)]; auto.
      right. exists ("-f" :: v :: pre), post. auto.
    + rewrite parse_list_unrecognised in H by assumption. apply IHv in H.
      destruct H as [H|(pre & post & E & Hc)]; auto.
      right. exists (a :: pre), post. split.
      * rewrite E. reflexivity.
      * cbn [complete].
        destruct (takes_value a) eqn:Ev; [|exact Hc].
        apply takes_value_recognised in Ev. congruence.
Qed.

Lemma optimize_at_head (o : Options) (pre post : list string) :
  complete pre = true ->
  optimize (parse_list o (pre ++ "-O" :: post)) = true.
Proof.
  intros Hc. rewrite parse_list_app by assumption.
  rewrite parse_list_O. apply optimize_mono. reflexivity.
Qed.

(** A flag that occurs nowhere leaves its option as it was. *)
Lemma absent_O (l : list string) :
  forall o, ~ In "-O" l -> optimize (parse_list o l) = optimize o.
Proof.
  intros o H. destruct (optimize (parse_list o l)) eqn:E.
  - apply optimize_set in E. destruct E as [E|(pre & post & -> & _)]; auto.
    exfalso. apply H. apply in_or_app. right. left. reflexivity.
  - destruct (optimize o) eqn:Eo; [|reflexivity].
    rewrite optimize_mono in E by assumption. discriminate.
Qed.

Lemma absent_t (l : list string) :
  forall o, ~ In "-t" l -> shaderKind (parse_list o l) = shaderKind o.
Proof.
  induction l as [|a|a v l IH IHv] using list_pair_ind; intros o H.
  - reflexivity.
  - rewrite parse_list_single. destruct (a =? "-O")%string; reflexivity.
  - rewrite parse_list_cons2.
    destruct (a =? "-t")%string eqn:Et.
    { apply String.eqb_eq in Et. subst a. exfalso. apply H. left. reflexivity. }
    assert (Hl : ~ In "-t" l) by (intros Hin; apply H; right; right; exact Hin).
    assert (Hvl : ~ In "-t" (v :: l)) by (intros Hin; apply H; right; exact Hin).
    destruct (a =? "-O")%string; [rewrite IHv by assumption; reflexivity|].
    destruct (a =? "-n")%string; [rewrite IH by assumption; reflexivity|].
    destruct (a =? "-f")%string; [rewrite IH by assumption; reflexivity|].
    apply IHv, Hvl.
Qed.

Lemma absent_n (l : list string) :
  forall o, ~ In "-n" l -> inputName (parse_list o l) = inputName o.
Proof.
  induction l as [|a|a v l IH IHv] using list_pair_ind; intros o H.
  - reflexivity.
  - rewrite parse_list_single. destruct (a =? "-O")%string; reflexivity.
  - rewrite parse_list_cons2.
    assert (Hl : ~ In "-n" l) by (intros Hin; apply H; right; right; exact Hin).
    assert (Hvl : ~ In "-n" (v :: l)) by (intros Hin; apply H; right; exact Hin).
    destruct (a =? "-t")%string; [rewrite IH by assumption; reflexivity|].
    destruct (a =? "-O")%string; [rewrite IHv by assumption; reflexivity|].
    destruct (a =? "-n")%string eqn:En.
    { apply String.eqb_eq in En. subst a. exfalso. apply H. left. reflexivity. }
    destruct (a =? "-f")%string; [rewrite IH by assumption; reflexivity|].
    apply IHv, Hvl.
Qed.

Lemma absent_f (l : list string) :
  forall o, ~ In "-f" l -> inputFile (parse_list o l) = inputFile o.
Proof.
  induction l as [|a|a v l IH IHv] using list_pair_ind; intros o H.
  - reflexivity.
  - rewrite parse_list_single. destruct (a =? "-O")%string; reflexivity.
  - rewrite parse_list_cons2.
    assert (Hl : ~ In "-f" l) by (intros Hin; apply H; right; right; exact Hin).
    assert (Hvl : ~ In "-f" (v :: l)) by (intros Hin; apply H; right; exact Hin).
    destruct (a =? "-t")%string; [rewrite IH by assumption; reflexivity|].
    destruct (a =? "-O")%string; [rewrite IHv by assumption; reflexivity|].
    destruct (a =? "-n")%string; [rewrite IH by assumption; reflexivity|].
    destruct (a =? "-f")%string eqn:Ef.
    { apply String.eqb_eq in Ef. subst a. exfalso. apply H. left. reflexivity. }
    apply IHv, Hvl.
Qed.

(** [inputFile] changes only at a [-f] met by the loop, and ends as the
    value of the last such [-f]. *)
Lemma inputFile_set (l : list string) :
  forall o, inputFile (parse_list o l) <> inputFile o ->
    exists pre post,
      l = (pre ++ "-f" :: inputFile (parse_list o l) :: post)%list /\
      complete pre = true.
Proof.
  induction l as [|a|a v l IH IHv] using list_pair_ind; intros o H.
  - contradiction H; reflexivity.
  - rewrite parse_list_single in H.
    destruct (a =? "-O")%string; contradiction H; reflexivity.
  - destruct (flag_cases a) as [->|[->|[->|[->|Ha]]]].
    + rewrite parse_list_cons2 in *.
      cbn [String.eqb Ascii.eqb Bool.eqb] in *.
      destruct (IH _ H) as (pre & post & E & Hc).
      exists ("-t" :: v :: pre), post. split; [|exact Hc].
      cbn [app]. rewrite <- E. reflexivity.
    + rewrite parse_list_O in *.
      destruct (IHv _ H) as (pre & post & E & Hc).
      exists ("-O" :: pre), post. split; [|exact Hc].
      cbn [app]. rewrite <- E. reflexivity.
    + rewrite parse_list_cons2 in *.
      cbn [String.eqb Ascii.eqb Bool.eqb] in *.
      destruct (IH _ H) as (pre & post & E & Hc).
      exists ("-n" :: v :: pre), post. split; [|exact Hc].
      cbn [app]. rewrite <- E. reflexivity.
    + rewrite parse_list_cons2 in *.
      cbn [String.eqb Ascii.eqb Bool.eqb] in *.
      destruct (string_dec (inputFile (parse_list (set_inputFile o v) l)) v)
        as [Ev|Ev].
      * exists [], l. rewrite Ev. auto.
      * destruct (IH (set_inputFile o v) Ev) as (pre & post & E & Hc).
        exists ("-f" :: v :: pre), post. split; [|exact Hc].
        cbn [app]. rewrite <- E. reflexivity.
    + rewrite parse_list_unrecognised in * by assumption.
      destruct (IHv _ H) as (pre & post & E & Hc).
      exists (a :: pre), post. split.
      * cbn [app]. rewrite <- E. reflexivity.
      * cbn [complete].
        destruct (takes_value a) eqn:Ev; [|exact Hc].
        apply takes_value_recognised in Ev. congruence.
Qed.

(** The value of a [-f] met by the loop is the path, unless a later [-f]
    replaces it. *)
Lemma inputFile_given (o : Options) (pre : list string) (path : string)
    (post : list string) :
  complete pre = true -> ~ In "-f" post ->
  inputFile (parse_list o (pre ++ "-f" :: path :: post)) = path.
Proof.
  intros Hc Hpost. rewrite parse_list_app by assumption.
  rewrite parse_list_cons2. cbn [String.eqb Ascii.eqb Bool.eqb].
  rewrite absent_f by assumption. reflexivity.
Qed.

(** Each of the four variables is computed from its own earlier value and
    the arguments alone: runs of the loop that start with the same value of
    a variable end with the same value of it. *)
Lemma shaderKind_own (l : list string) :
  forall o1 o2, shaderKind o1 = shaderKind o2 ->
    shaderKind (parse_list o1 l) = shaderKind (parse_list o2 l).
Proof.
  induction l as [|a|a v l IH IHv] using list_pair_ind; intros o1 o2 H.
  - exact H.
  - rewrite !parse_list_single. destruct (a =? "-O")%string; exact H.
  - rewrite !parse_list_cons2.
    destruct (a =? "-t")%string; [apply IH; reflexivity|].
    destruct (a =? "-O")%string; [apply IHv; exact H|].
    destruct (a =? "-n")%string; [apply IH; exact H|].
    destruct (a =? "-f")%string; [apply IH; exact H|].
    apply IHv, H.
Qed.

Lemma optimize_own (l : list string) :
  forall o1 o2, optimize o1 = optimize o2 ->
    optimize (parse_list o1 l) = optimize (parse_list o2 l).
Proof.
  induction l as [|a|a v l IH IHv] using list_pair_ind; intros o1 o2 H.
  - exact H.
  - rewrite !parse_list_single. destruct (a =? "-O")%string;
      [reflexivity | exact H].
  - rewrite !parse_list_cons2.
    destruct (a =? "-t")%string; [apply IH; exact H|].
    destruct (a =? "-O")%string; [apply IHv; reflexivity|].
    destruct (a =? "-n")%string; [apply IH; exact H|].
    destruct (a =? "-f")%string; [apply IH; exact H|].
    apply IHv, H.
Qed.

Lemma inputName_own (l : list string) :
  forall o1 o2, inputName o1 = inputName o2 ->
    inputName (parse_list o1 l) = inputName (parse_list o2 l).
Proof.
  induction l as [|a|a v l IH IHv] using list_pair_ind; intros o1 o2 H.
  - exact H.
  - rewrite !parse_list_single. destruct (a =? "-O")%string; exact H.
  - rewrite !parse_list_cons2.
    destruct (a =? "-t")%string; [apply IH; exact H|].
    destruct (a =? "-O")%string; [apply IHv; exact H|].
    destruct (a =? "-n")%string; [apply IH; reflexivity|].
    destruct (a =? "-f")%string; [apply IH; exact H|].
    apply IHv, H.
Qed.

Lemma inputFile_own (l : list string) :
  forall o1 o2, inputFile o1 = inputFile o2 ->
    inputFile (parse_list o1 l) = inputFile (parse_list o2 l).
Proof.
  induction l as [|a|a v l IH IHv] using list_pair_ind; intros o1 o2 H.
  - exact H.
  - rewrite !parse_list_single. destruct (a =? "-O")%string; exact H.
  - rewrite !parse_list_cons2.
    destruct (a =? "-t")%string; [apply IH; exact H|].
    destruct (a =? "-O")%string; [apply IHv; exact H|].
    destruct (a =? "-n")%string; [apply IH; exact H|].
    destruct (a =? "-f")%string; [apply IH; reflexivity|].
    apply IHv, H.
Qed.

Lemma Options_ext (o1 o2 : Options) :
  shaderKind o1 = shaderKind o2 -> optimize o1 = optimize o2 ->
  inputName o1 = inputName o2 -> inputFile o1 = inputFile o2 ->
  o1 = o2.
Proof. destruct o1, o2; cbn; congruence. Qed.

(** Leaving every [-f] pair out changes nothing but [inputFile], which then
    keeps the value it had before the loop. *)
Lemma omit_f_parse (l : list string) :
  forall o,
    shaderKind (parse_list o (omit_f l)) = shaderKind (parse_list o l) /\
    optimize (parse_list o (omit_f l)) = optimize (parse_list o l) /\
    inputName (parse_list o (omit_f l)) = inputName (parse_list o l) /\
    inputFile (parse_list o (omit_f l)) = inputFile o.
Proof.
  induction l as [|a|a v l IH IHv] using list_pair_ind; intros o.
  - repeat split.
  - cbn [omit_f]. destruct (a =? "-f")%string eqn:E.
    + apply String.eqb_eq in E. subst a. repeat split.
    + rewrite parse_list_single.
      destruct (a =? "-O")%string; repeat split.
  - destruct (flag_cases a) as [->|[->|[->|[->|Ha]]]].
    + change (omit_f ("-t" :: v :: l)) with ("-t" :: v :: omit_f l).
      rewrite !parse_list_cons2. cbn [String.eqb Ascii.eqb Bool.eqb].
      apply (IH (set_shaderKind o (getShaderKind v))).
    + change (omit_f ("-O" :: v :: l)) with ("-O" :: omit_f (v :: l)).
      rewrite !parse_list_O. apply (IHv (set_optimize o true)).
    + change (omit_f ("-n" :: v :: l)) with ("-n" :: v :: omit_f l).
      rewrite !parse_list_cons2. cbn [String.eqb Ascii.eqb Bool.eqb].
      apply (IH (set_inputName o v)).
    + change (omit_f ("-f" :: v :: l)) with (omit_f l).
      rewrite (parse_list_cons2 o "-f"). cbn [String.eqb Ascii.eqb Bool.eqb].
      destruct (IH o) as (Hk & Ho & Hn & Hf).
      rewrite Hk, Ho, Hn, Hf.
      split; [apply shaderKind_own; reflexivity|].
      split; [apply optimize_own; reflexivity|].
      split; [apply inputName_own; reflexivity | reflexivity].
    + pose proof (recognised_false a Ha) as (Ht & HO & Hn & Hf).
      assert (E : omit_f (a :: v :: l) = a :: omit_f (v :: l)).
      { cbn [omit_f]. rewrite Hf, Ht, Hn. reflexivity. }
      rewrite E. rewrite !(parse_list_unrecognised _ a) by assumption.
      apply IHv.
Qed.

End ParseList.

(** * Runs of [main] *)

(** [main] looks at [argv] only through the parse loop. *)
Lemma run_main_parseArgs (env : Env) (argv argv' : list string) :
  parseArgs argv = parseArgs argv' -> run_main env argv = run_main env argv'.
Proof.
  intros H. unfold run_main, main. rewrite H. reflexivity.
Qed.

(** [main], run from the initial state, in closed form. *)
Lemma run_main_eq (env : Env) (argv : list string) :
  run_main env argv = run_summary env (parseArgs argv).
Proof.
  run_norm.
  destruct (_WIN32 env);
    destruct (inputFile (parseArgs argv) =? "")%string;
    try destruct (ifstream_contents env (inputFile (parseArgs argv)))
      as [contents|];
    try reflexivity;
    match goal with
    | |- context [ (?s =? "")%string ] => destruct (s =? "")%string
    end;
    try reflexivity;
    destruct (optimize (parseArgs argv));
    match goal with
    | |- context [ (?a =? ?b)%Z ] => destruct (a =? b)%Z
    end;
    reflexivity.
Qed.

(** * The bytes of the module *)

Lemma length_vector_bytes (bo : ByteOrder) (spirv : list Z) :
  List.length (vector_bytes bo spirv) = 4 * List.length spirv.
Proof.
  induction spirv as [|w spirv IH]; [reflexivity|].
  change (vector_bytes bo (w :: spirv))
    with (word_bytes bo w ++ vector_bytes bo spirv)%list.
  rewrite length_app, IH. destruct bo; simpl; lia.
Qed.

Lemma word_byte_range (w k : Z) : (0 <= word_byte w k < 256)%Z.
Proof.
  unfold word_byte. change 255%Z with (Z.ones 8).
  rewrite Z.land_ones by lia. apply Z.mod_pos_bound. reflexivity.
Qed.

Lemma word_of_word_bytes (bo : ByteOrder) (w : Z) :
  (0 <= w < 4294967296)%Z ->
  word_of_bytes bo
    (nth 0 (word_bytes bo w) 0%Z) (nth 1 (word_bytes bo w) 0%Z)
    (nth 2 (word_bytes bo w) 0%Z) (nth 3 (word_bytes bo w) 0%Z) = w.
Proof.
  intros Hw.
  assert (E : forall k, (0 <= k)%Z ->
            word_byte w k = ((w / 2 ^ (8 * k)) mod 256)%Z).
  { intros k Hk. unfold word_byte. change 255%Z with (Z.ones 8).
    rewrite Z.land_ones by lia. rewrite Z.shiftr_div_pow2 by lia.
    reflexivity. }
  destruct bo; cbn [word_bytes nth word_of_bytes]; rewrite !E by lia;
    change (2 ^ (8 * 0))%Z with 1%Z; change (2 ^ (8 * 1))%Z with 256%Z;
    change (2 ^ (8 * 2))%Z with 65536%Z;
    change (2 ^ (8 * 3))%Z with 16777216%Z;
    Z.div_mod_to_equations; lia.
Qed.

(** The byte stream determines the words: nothing is lost or added. *)
Lemma words_of_vector_bytes (bo : ByteOrder) (spirv : list Z) :
  Forall (fun w => 0 <= w < 4294967296)%Z spirv ->
  words_of_bytes bo (vector_bytes bo spirv) = spirv.
Proof.
  induction 1 as [|w spirv Hw _ IH]; [reflexivity|].
  change (vector_bytes bo (w :: spirv))
    with (word_bytes bo w ++ vector_bytes bo spirv)%list.
  pose proof (word_of_word_bytes bo w Hw) as E.
  destruct bo; cbn [word_bytes app words_of_bytes nth] in *;
    rewrite IH, E; reflexivity.
Qed.

(** * The claims *)

(** C1. Whenever the library reports a compilation as successful, standard
    output receives exactly the bytes of the resulting 32-bit words in the
    machine's byte order (on Windows too, where the stream has been put in
    binary mode), nothing before or after them; the exit code is 0 and the
    number of bytes is four times the number of words, a multiple of 4. *)
Theorem C1_success_output (env : Env) (argv : list string) (call : CompileCall) :
  In call (compiler_calls (final_World env argv)) ->
  GetCompilationStatus (call_result env call)
  = shaderc_compilation_status_success (shaderc env) ->
  exit_code env argv = 0%Z /\
  stdout_bytes (final_World env argv)
  = vector_bytes (byte_order env) (spirv_words (call_result env call)) /\
  List.length (stdout_bytes (final_World env argv))
  = 4 * List.length (spirv_words (call_result env call)) /\
  Nat.modulo (List.length (stdout_bytes (final_World env argv))) 4 = 0.
Proof.
  unfold exit_code, final_World. rewrite run_main_eq. unfold run_summary.
  destruct (source_of env (parseArgs argv)) as [src|];
    [destruct (src =? "")%string|]; cbn [snd fst end_World compiler_calls In];
    try tauto.
  set (c := call_of (parseArgs argv) src).
  destruct (GetCompilationStatus (call_result env c)
            =? shaderc_compilation_status_success (shaderc env))%Z eqn:E;
    cbn [snd fst end_World compiler_calls stdout_bytes In];
    intros [<-|[]] Hst.
  - rewrite length_vector_bytes.
    repeat split; try reflexivity.
    rewrite Nat.mul_comm. apply Nat.Div0.mod_mul.
  - apply Z.eqb_neq in E. contradiction.
Qed.

Lemma C1_success_output_witness :
  exit_code demo_env ["glslc"; "-f"; "tri.vert"] = 0%Z /\
  stdout_bytes (final_World demo_env ["glslc"; "-f"; "tri.vert"])
  = [3; 2; 35; 7; 0; 0; 1; 0; 10; 0; 0; 0]%Z.
Proof.
  pose proof (C1_success_output demo_env ["glslc"; "-f"; "tri.vert"]
                (call_of initial_Options "void main(){}")) as H.
  destruct H as (H1 & H2 & _).
  - vm_compute. left. reflexivity.
  - reflexivity.
  - split; [exact H1|]. rewrite H2. reflexivity.
Defined.

(** C2. Whenever the compile call returns a status other than success, the
    diagnostic stream receives the line with the status printed as a decimal
    number and the line with the library's error text, unchanged, between
    double quotes; the stream is flushed, the exit code is 1 and standard
    output receives nothing. *)
Theorem C2_compile_error (env : Env) (argv : list string) (call : CompileCall) :
  In call (compiler_calls (final_World env argv)) ->
  GetCompilationStatus (call_result env call)
  <> shaderc_compilation_status_success (shaderc env) ->
  exit_code env argv = 1%Z /\
  cerr_text (final_World env argv)
  = "Compilation error (status code: "
      ++ decimal (GetCompilationStatus (call_result env call)) ++ ")"
      ++ newline
      ++ "Error message: " ++ double_quote
      ++ GetErrorMessage (call_result env call) ++ double_quote
      ++ newline /\
  cerr_is_flushed (final_World env argv) = true /\
  stdout_bytes (final_World env argv) = [].
Proof.
  unfold exit_code, final_World, cerr_text, cerr_is_flushed.
  rewrite run_main_eq. unfold run_summary.
  destruct (source_of env (parseArgs argv)) as [src|];
    [destruct (src =? "")%string|]; cbn [snd fst end_World compiler_calls In];
    try tauto.
  set (c := call_of (parseArgs argv) src).
  destruct (GetCompilationStatus (call_result env c)
            =? shaderc_compilation_status_success (shaderc env))%Z eqn:E;
    cbn [snd fst end_World compiler_calls stdout_bytes cerr_log In];
    intros [<-|[]] Hst.
  - apply Z.eqb_eq in E. contradiction.
  - repeat split; reflexivity.
Qed.

Lemma C2_compile_error_witness :
  exit_code demo_env ["glslc"; "-f"; "bad.vert"; "-n"; "bad"] = 1%Z /\
  cerr_text (final_World demo_env ["glslc"; "-f"; "bad.vert"; "-n"; "bad"])
  = "Compilation error (status code: 2)" ++ newline
      ++ "Error message: " ++ double_quote
      ++ "shader:1: error: syntax error" ++ double_quote ++ newline /\
  stdout_bytes (final_World demo_env ["glslc"; "-f"; "bad.vert"; "-n"; "bad"])
  = [].
Proof.
  pose proof (C2_compile_error demo_env
                ["glslc"; "-f"; "bad.vert"; "-n"; "bad"]
                (call_of (set_inputName initial_Options "bad") "void main("))
    as H.
  destruct H as (H1 & H2 & _ & H4).
  - vm_compute. left. reflexivity.
  - vm_compute. discriminate.
  - split; [exact H1 | split; [rewrite H2; reflexivity | exact H4]].
Defined.

(** C3. Whenever the source buffer comes out empty (the file named by
    [inputFile] opens and is empty, or no file is named and standard input
    has nothing), the exit code is 1, the diagnostic stream holds exactly
    the line [Error: No shader source provided], standard output receives
    nothing and the compiler is not called. *)
Theorem C3_empty_source (env : Env) (argv : list string) :
  (inputFile (parseArgs argv) <> "" /\
   ifstream_contents env (inputFile (parseArgs argv)) = Some "") \/
  (inputFile (parseArgs argv) = "" /\ cin_contents env = "") ->
  exit_code env argv = 1%Z /\
  cerr_text (final_World env argv)
  = "Error: No shader source provided" ++ newline /\
  cerr_is_flushed (final_World env argv) = true /\
  stdout_bytes (final_World env argv) = [] /\
  compiler_calls (final_World env argv) = [].
Proof.
  intros H.
  assert (Hs : source_of env (parseArgs argv) = Some "").
  { unfold source_of. destruct H as [[Hne Hf]|[He Hc]].
    - apply String.eqb_neq in Hne. rewrite Hne. exact Hf.
    - rewrite He, Hc. reflexivity. }
  unfold exit_code, final_World, cerr_text, cerr_is_flushed.
  rewrite run_main_eq. unfold run_summary. rewrite Hs.
  repeat split; reflexivity.
Qed.

Lemma C3_empty_source_witness :
  exit_code demo_env ["glslc"; "-f"; "empty.vert"] = 1%Z /\
  exit_code demo_env_closed_stdin ["glslc"; "-O"] = 1%Z /\
  compiler_calls (final_World demo_env_closed_stdin ["glslc"; "-O"]) = [].
Proof.
  pose proof (C3_empty_source demo_env ["glslc"; "-f"; "empty.vert"]) as H.
  pose proof (C3_empty_source demo_env_closed_stdin ["glslc"; "-O"]) as H'.
  destruct H as (H1 & _).
  - left. split; [vm_compute; discriminate | reflexivity].
  - destruct H' as (H1' & _ & _ & _ & H5').
    + right. split; reflexivity.
    + split; [exact H1 | split; [exact H1' | exact H5']].
Defined.

(** C4. Whenever the parse loop leaves a non-empty path in [inputFile] (by
    [inputFile_loop_head], the value that follows a [-f] met by the loop)
    and the stream for it cannot be opened, the diagnostic stream holds
    exactly [Error: Could not open file: ] followed by the path and a line
    end, the exit code is 1, and the compiler has not been called (nor is
    anything written to standard output). *)
Theorem C4_open_failure (env : Env) (argv : list string) (path : string) :
  inputFile (parseArgs argv) = path ->
  path <> "" ->
  ifstream_contents env path = None ->
  exit_code env argv = 1%Z /\
  cerr_text (final_World env argv)
  = "Error: Could not open file: " ++ path ++ newline /\
  cerr_is_flushed (final_World env argv) = true /\
  compiler_calls (final_World env argv) = [] /\
  stdout_bytes (final_World env argv) = [] /\
  files_opened (final_World env argv) = [path].
Proof.
  intros Hp Hne Hf.
  assert (Hs : source_of env (parseArgs argv) = None).
  { unfold source_of. rewrite Hp. apply String.eqb_neq in Hne.
    rewrite Hne. exact Hf. }
  unfold exit_code, final_World, cerr_text, cerr_is_flushed.
  rewrite run_main_eq. unfold run_summary. rewrite Hs, Hp.
  apply String.eqb_neq in Hne.
  cbn [snd fst end_World compiler_calls stdout_bytes cerr_log files_opened].
  rewrite Hp, Hne.
  repeat split; reflexivity.
Qed.

Lemma C4_open_failure_witness :
  exit_code demo_env ["glslc"; "-t"; "vertex"; "-f"; "missing.vert"] = 1%Z /\
  cerr_text
    (final_World demo_env ["glslc"; "-t"; "vertex"; "-f"; "missing.vert"])
  = "Error: Could not open file: missing.vert" ++ newline /\
  compiler_calls
    (final_World demo_env ["glslc"; "-t"; "vertex"; "-f"; "missing.vert"])
  = [].
Proof.
  pose proof (C4_open_failure demo_env
                ["glslc"; "-t"; "vertex"; "-f"; "missing.vert"]
                "missing.vert") as H.
  destruct H as (H1 & H2 & _ & H4 & _).
  - reflexivity.
  - discriminate.
  - reflexivity.
  - split; [exact H1 | split; [rewrite H2; reflexivity | exact H4]].
Defined.

Lemma getShaderKind_cases (type : string) :
  (type = "vertex" /\ getShaderKind type = shaderc_vertex_shader) \/
  (type = "fragment" /\ getShaderKind type = shaderc_fragment_shader) \/
  (type = "compute" /\ getShaderKind type = shaderc_compute_shader) \/
  (type = "geometry" /\ getShaderKind type = shaderc_geometry_shader) \/
  (type = "tess_control" /\ getShaderKind type = shaderc_tess_control_shader) \/
  (type = "tess_evaluation" /\
   getShaderKind type = shaderc_tess_evaluation_shader) \/
  ((type <> "vertex" /\ type <> "fragment" /\ type <> "compute" /\
    type <> "geometry" /\ type <> "tess_control" /\
    type <> "tess_evaluation") /\
   getShaderKind type = shaderc_glsl_infer_from_source).
Proof.
  unfold getShaderKind.
  destruct (type =? "vertex")%string eqn:E1;
    [apply String.eqb_eq in E1; auto|].
  destruct (type =? "fragment")%string eqn:E2;
    [apply String.eqb_eq in E2; auto|].
  destruct (type =? "compute")%string eqn:E3;
    [apply String.eqb_eq in E3; auto|].
  destruct (type =? "geometry")%string eqn:E4;
    [apply String.eqb_eq in E4; auto 6|].
  destruct (type =? "tess_control")%string eqn:E5;
    [apply String.eqb_eq in E5; auto 7|].
  destruct (type =? "tess_evaluation")%string eqn:E6;
    [apply String.eqb_eq in E6; auto 8|].
  apply String.eqb_neq in E1, E2, E3, E4, E5, E6.
  repeat right. auto 10.
Qed.

(** C5. The value that follows a [-t] met by the loop goes through
    [getShaderKind], and (when no later [-t] replaces it) the result is the
    stage of the run.  The mapping sends each of the six tokens [vertex],
    [fragment], [compute], [geometry], [tess_control], [tess_evaluation] to
    its own stage, sends no other token there, and sends every other token
    to "infer from source". *)
Theorem C5_stage_mapping (prog : string) (pre : list string) (type : string)
    (post : list string) :
  loop_head (prog :: pre ++ "-t" :: type :: post) (S (List.length pre)) = true ->
  ~ In "-t" post ->
  shaderKind (parseArgs (prog :: pre ++ "-t" :: type :: post))
  = getShaderKind type /\
  (getShaderKind type = shaderc_vertex_shader <-> type = "vertex") /\
  (getShaderKind type = shaderc_fragment_shader <-> type = "fragment") /\
  (getShaderKind type = shaderc_compute_shader <-> type = "compute") /\
  (getShaderKind type = shaderc_geometry_shader <-> type = "geometry") /\
  (getShaderKind type = shaderc_tess_control_shader
   <-> type = "tess_control") /\
  (getShaderKind type = shaderc_tess_evaluation_shader
   <-> type = "tess_evaluation") /\
  (getShaderKind type = shaderc_glsl_infer_from_source
   <-> (type <> "vertex" /\ type <> "fragment" /\ type <> "compute" /\
        type <> "geometry" /\ type <> "tess_control" /\
        type <> "tess_evaluation")).
Proof.
  intros Hhead Hpost. split.
  - rewrite loop_head_splice in Hhead.
    rewrite parseArgs_list. cbn [tl].
    rewrite parse_list_app by assumption.
    rewrite parse_list_cons2. cbn [String.eqb Ascii.eqb Bool.eqb].
    rewrite absent_t by assumption. reflexivity.
  - destruct (getShaderKind_cases type)
      as [[-> E]|[[-> E]|[[-> E]|[[-> E]|[[-> E]|[[-> E]|[Hne E]]]]]]];
      rewrite E; clear E;
      repeat match goal with
             | |- _ /\ _ => split
             | |- _ <-> _ => split
             end;
      intros H; try reflexivity; try discriminate H;
      try tauto; try (destruct H as (?&?&?&?&?&?); congruence).
Qed.

Lemma C5_stage_mapping_witness :
  shaderKind
    (parseArgs ["glslc"; "-O"; "-t"; "tess_control"; "-n"; "hull"])
  = shaderc_tess_control_shader.
Proof.
  pose proof (C5_stage_mapping "glslc" ["-O"] "tess_control" ["-n"; "hull"])
    as H.
  destruct H as (H1 & _).
  - reflexivity.
  - simpl. intros [E|[E|[]]]; discriminate E.
  - exact H1.
Defined.

(** The loop sets [optimize] exactly when it meets [-O] at the top of an
    iteration. *)
Lemma optimize_loop_head (argv : list string) :
  optimize (parseArgs argv) = true <->
  exists k, loop_head argv k = true /\ arg_at argv k = "-O".
Proof.
  rewrite parseArgs_list. split.
  - intros H. apply optimize_set in H.
    destruct H as [H|(pre & post & E & Hc)]; [discriminate H|].
    destruct argv as [|prog args]; [destruct pre; discriminate E|].
    cbn [tl] in E. subst args.
    exists (S (List.length pre)). split.
    + rewrite loop_head_splice. exact Hc.
    + apply (arg_at_app (prog :: pre)).
  - intros (k & Hk & Ha).
    destruct (argv_split argv k (loop_head_range argv k Hk))
      as (prog & pre & post & E & Ek).
    rewrite Ha in E. subst k. rewrite E in Hk |- *.
    rewrite loop_head_splice in Hk. cbn [tl].
    apply optimize_at_head, Hk.
Qed.

(** A non-empty [inputFile] after the loop is the value that follows a [-f]
    which the loop met at the top of an iteration. *)
Lemma inputFile_loop_head (argv : list string) (path : string) :
  inputFile (parseArgs argv) = path -> path <> "" ->
  exists k, loop_head argv k = true /\ arg_at argv k = "-f" /\
            arg_at argv (S k) = path.
Proof.
  rewrite parseArgs_list. intros Hp Hne.
  destruct (inputFile_set (tl argv) initial_Options)
    as (pre & post & E & Hc).
  { rewrite Hp. exact Hne. }
  rewrite Hp in E.
  destruct argv as [|prog args]; [destruct pre; discriminate E|].
  cbn [tl] in E. subst args.
  exists (S (List.length pre)). split; [|split].
  - rewrite loop_head_splice. exact Hc.
  - apply (arg_at_app (prog :: pre)).
  - change (prog :: pre ++ "-f" :: path :: post)%list
      with ((prog :: pre) ++ "-f" :: path :: post)%list.
    replace ((prog :: pre) ++ "-f" :: path :: post)%list
      with (((prog :: pre) ++ ["-f"]) ++ path :: post)%list
      by (rewrite <- app_assoc; reflexivity).
    replace (S (S (List.length pre)))
      with (List.length ((prog :: pre) ++ ["-f"])%list)
      by (rewrite length_app; simpl; lia).
    apply arg_at_app.
Qed.

(** C6, as the specification words it, fails: with the arguments
    [-n -O] the token [-O] is present among the arguments, but it is
    consumed as the value of [-n], and the compiler is called with no
    optimization level set. *)
Lemma C6_counterexample :
  In "-O" (tl ["glslc"; "-n"; "-O"]) /\
  compiler_calls (final_World demo_env ["glslc"; "-n"; "-O"])
  = [{| call_source := "void main(){}";
        call_kind := shaderc_glsl_infer_from_source;
        call_name := "-O";
        call_options := {| optimization_level := None |} |}].
Proof.
  split.
  - simpl. auto.
  - reflexivity.
Qed.

(** C6, amended.  The compiler is called with the performance preset if and
    only if the parse loop meets [-O] at the top of an iteration, that is,
    [-O] occurs among the arguments and is not the value consumed by a
    preceding [-t], [-n] or [-f]; otherwise the options are the
    default-constructed ones, with no optimization level set.  In
    particular that is so when [-O] occurs nowhere. *)
Theorem C6_optimization_flag (env : Env) (argv : list string)
    (call : CompileCall) :
  In call (compiler_calls (final_World env argv)) ->
  (call_options call
   = {| optimization_level := Some shaderc_optimization_level_performance |}
   <-> exists k, loop_head argv k = true /\ arg_at argv k = "-O") /\
  (call_options call = {| optimization_level := None |}
   <-> ~ exists k, loop_head argv k = true /\ arg_at argv k = "-O") /\
  (~ In "-O" (tl argv) ->
   call_options call = {| optimization_level := None |}).
Proof.
  intros Hin.
  assert (Hopt : call_options call
                 = if optimize (parseArgs argv)
                   then {| optimization_level :=
                             Some shaderc_optimization_level_performance |}
                   else {| optimization_level := None |}).
  { revert Hin. unfold final_World. rewrite run_main_eq. unfold run_summary.
    destruct (source_of env (parseArgs argv)) as [src|];
      [destruct (src =? "")%string|];
      cbn [snd end_World compiler_calls In]; try tauto.
    destruct (GetCompilationStatus _ =? _)%Z;
      cbn [snd end_World compiler_calls In];
      intros [<-|[]]; reflexivity. }
  pose proof (optimize_loop_head argv) as Hlh.
  rewrite Hopt. repeat split.
  - destruct (optimize (parseArgs argv)); [intros _; apply Hlh; reflexivity|].
    discriminate.
  - intros Hk. apply Hlh in Hk. rewrite Hk. reflexivity.
  - destruct (optimize (parseArgs argv)); [discriminate|].
    intros _ Hk. apply Hlh in Hk. discriminate Hk.
  - intros Hk. destruct (optimize (parseArgs argv)); [|reflexivity].
    exfalso. apply Hk, Hlh. reflexivity.
  - intros Habs. rewrite parseArgs_list, absent_O by assumption. reflexivity.
Qed.

Lemma C6_optimization_flag_witness :
  exists call,
    compiler_calls (final_World demo_env ["glslc"; "-n"; "blur"; "-O"])
    = [call] /\
    call_options call
    = {| optimization_level := Some shaderc_optimization_level_performance |}.
Proof.
  exists (call_of (set_optimize (set_inputName initial_Options "blur") true)
            "void main(){}").
  split; [reflexivity|].
  apply (C6_optimization_flag demo_env ["glslc"; "-n"; "blur"; "-O"]).
  - vm_compute. left. reflexivity.
  - exists 3. split; reflexivity.
Defined.

(** C7. The defaults.  When [-n] does not occur among the arguments, the
    name passed to the compiler is [shader]; when [-f] does not occur, no
    file is opened, standard input is read to its end and its whole text is
    the source passed to the compiler; when [-t] does not occur, the stage
    passed is "infer from source". *)
Theorem C7_defaults (env : Env) (argv : list string) :
  (~ In "-n" (tl argv) ->
   inputName (parseArgs argv) = "shader" /\
   forall call, In call (compiler_calls (final_World env argv)) ->
     call_name call = "shader") /\
  (~ In "-f" (tl argv) ->
   files_opened (final_World env argv) = [] /\
   cin_unread (final_World env argv) = "" /\
   forall call, In call (compiler_calls (final_World env argv)) ->
     call_source call = cin_contents env) /\
  (~ In "-t" (tl argv) ->
   shaderKind (parseArgs argv) = shaderc_glsl_infer_from_source /\
   forall call, In call (compiler_calls (final_World env argv)) ->
     call_kind call = shaderc_glsl_infer_from_source).
Proof.
  assert (Hcalls : forall call,
            In call (compiler_calls (final_World env argv)) ->
            exists src, source_of env (parseArgs argv) = Some src /\
                        call = call_of (parseArgs argv) src).
  { intros call. unfold final_World. rewrite run_main_eq. unfold run_summary.
    destruct (source_of env (parseArgs argv)) as [src|];
      [destruct (src =? "")%string|];
      cbn [snd end_World compiler_calls In]; try tauto.
    destruct (GetCompilationStatus _ =? _)%Z;
      cbn [snd end_World compiler_calls In];
      intros [<-|[]]; exists src; auto. }
  split; [|split].
  - intros Habs.
    assert (E : inputName (parseArgs argv) = "shader")
      by (rewrite parseArgs_list, absent_n by assumption; reflexivity).
    split; [exact E|].
    intros call Hin. destruct (Hcalls call Hin) as (src & _ & ->). exact E.
  - intros Habs.
    assert (E : inputFile (parseArgs argv) = "")
      by (rewrite parseArgs_list, absent_f by assumption; reflexivity).
    split; [|split].
    + unfold final_World. rewrite run_main_eq. unfold run_summary.
      destruct (source_of env (parseArgs argv)) as [src|];
        [destruct (src =? "")%string|];
        [| destruct (GetCompilationStatus _ =? _)%Z |];
        cbn [snd end_World files_opened]; rewrite E; reflexivity.
    + unfold final_World. rewrite run_main_eq. unfold run_summary.
      destruct (source_of env (parseArgs argv)) as [src|];
        [destruct (src =? "")%string|];
        [| destruct (GetCompilationStatus _ =? _)%Z |];
        cbn [snd end_World cin_unread]; rewrite E; reflexivity.
    + intros call Hin. destruct (Hcalls call Hin) as (src & Hs & ->).
      unfold source_of in Hs. rewrite E in Hs. cbn in Hs.
      injection Hs as <-. reflexivity.
  - intros Habs.
    assert (E : shaderKind (parseArgs argv) = shaderc_glsl_infer_from_source)
      by (rewrite parseArgs_list, absent_t by assumption; reflexivity).
    split; [exact E|].
    intros call Hin. destruct (Hcalls call Hin) as (src & _ & ->). exact E.
Qed.

Lemma C7_defaults_witness :
  compiler_calls (final_World demo_env ["glslc"; "-O"])
  = [{| call_source := "void main(){}";
        call_kind := shaderc_glsl_infer_from_source;
        call_name := "shader";
        call_options :=
          {| optimization_level :=
               Some shaderc_optimization_level_performance |} |}] /\
  inputName (parseArgs ["glslc"; "-O"]) = "shader" /\
  cin_unread (final_World demo_env ["glslc"; "-O"]) = "" /\
  shaderKind (parseArgs ["glslc"; "-O"]) = shaderc_glsl_infer_from_source.
Proof.
  destruct (C7_defaults demo_env ["glslc"; "-O"]) as (Hn & Hf & Ht).
  assert (Ha : forall f : string, f <> "-O" -> ~ In f (tl ["glslc"; "-O"])).
  { intros f Hne [E|[]]. apply Hne. symmetry. exact E. }
  destruct Hn as (Hn1 & _); [apply Ha; discriminate|].
  destruct Hf as (_ & Hf2 & _); [apply Ha; discriminate|].
  destruct Ht as (Ht1 & _); [apply Ha; discriminate|].
  split; [reflexivity|]. split; [exact Hn1|]. split; [exact Hf2|exact Ht1].
Defined.

(** C8. An argument that the loop examines (it is not the value consumed by
    a preceding [-t], [-n] or [-f]) and that is none of [-t], [-O], [-n],
    [-f] is ignored: the parsed options, and with them the whole run (exit
    code, diagnostic stream, standard output, the call made to the
    compiler), are those of the argument list without it. *)
Theorem C8_unrecognised_ignored (env : Env) (prog : string)
    (pre : list string) (x : string) (post : list string) :
  loop_head (prog :: pre ++ x :: post) (S (List.length pre)) = true ->
  recognised x = false ->
  parseArgs (prog :: pre ++ x :: post) = parseArgs (prog :: pre ++ post) /\
  run_main env (prog :: pre ++ x :: post) = run_main env (prog :: pre ++ post).
Proof.
  intros Hhead Hx. rewrite loop_head_splice in Hhead.
  assert (E : parseArgs (prog :: pre ++ x :: post)
              = parseArgs (prog :: pre ++ post)).
  { rewrite !parseArgs_list. cbn [tl]. apply parse_list_skip; assumption. }
  split; [exact E|]. apply run_main_parseArgs, E.
Qed.

Lemma C8_unrecognised_ignored_witness :
  run_main demo_env ["glslc"; "-t"; "vertex"; "--verbose"; "-O"]
  = run_main demo_env ["glslc"; "-t"; "vertex"; "-O"].
Proof.
  apply (C8_unrecognised_ignored demo_env "glslc" ["-t"; "vertex"]
           "--verbose" ["-O"]); reflexivity.
Defined.

(** C9, as the specification words it, fails.  In [-f "" -f missing.vert]
    the first [-f] is given with the empty string, yet the later [-f]
    selects a file: the driver opens it, reports the open error, exits
    with 1 and never reads standard input.  And in [-n -f ""] the [-f] is
    the value consumed by [-n]: the compiler is called with the name [-f],
    not with the name [shader] of the run without [-f] and its value. *)
Lemma C9_counterexample :
  loop_head ["glslc"; "-f"; ""; "-f"; "missing.vert"] 1 = true /\
  files_opened (final_World demo_env ["glslc"; "-f"; ""; "-f"; "missing.vert"])
  = ["missing.vert"] /\
  cerr_text (final_World demo_env ["glslc"; "-f"; ""; "-f"; "missing.vert"])
  = "Error: Could not open file: missing.vert" ++ newline /\
  exit_code demo_env ["glslc"; "-f"; ""; "-f"; "missing.vert"] = 1%Z /\
  cin_unread (final_World demo_env ["glslc"; "-f"; ""; "-f"; "missing.vert"])
  = cin_contents demo_env /\
  map call_name (compiler_calls (final_World demo_env ["glslc"; "-n"; "-f"; ""]))
  = ["-f"] /\
  map call_name (compiler_calls (final_World demo_env ["glslc"; "-n"]))
  = ["shader"].
Proof.
  repeat match goal with |- _ /\ _ => split end; reflexivity.
Qed.

(** C9, amended.  When the loop examines [-f] (it is not the value consumed
    by a preceding flag) and its value is the empty string, and the
    arguments after the pair select no file, then, whatever precedes the
    pair (an earlier [-f] with a path included): [inputFile] is empty, no
    file is opened, no file-open error is reported, standard input is read
    to its end and its text is the source (the compiler is called with it
    when it is not empty, and not called when it is), and the whole run is
    the run of the argument list with every [-f] and its value left out. *)
Theorem C9_empty_path (env : Env) (prog : string) (pre post : list string) :
  loop_head (prog :: pre ++ "-f" :: "" :: post) (S (List.length pre)) = true ->
  inputFile (parseArgs (prog :: post)) = "" ->
  inputFile (parseArgs (prog :: pre ++ "-f" :: "" :: post)) = "" /\
  files_opened (final_World env (prog :: pre ++ "-f" :: "" :: post)) = [] /\
  (forall path,
     cerr_log (final_World env (prog :: pre ++ "-f" :: "" :: post))
     <> open_failure_log path) /\
  cin_unread (final_World env (prog :: pre ++ "-f" :: "" :: post)) = "" /\
  compiler_calls (final_World env (prog :: pre ++ "-f" :: "" :: post))
  = (if (cin_contents env =? "")%string then []
     else [{| call_source := cin_contents env;
              call_kind :=
                shaderKind (parseArgs (prog :: pre ++ "-f" :: "" :: post));
              call_name :=
                inputName (parseArgs (prog :: pre ++ "-f" :: "" :: post));
              call_options :=
                if optimize (parseArgs (prog :: pre ++ "-f" :: "" :: post))
                then {| optimization_level :=
                          Some shaderc_optimization_level_performance |}
                else {| optimization_level := None |} |}]) /\
  run_main env (prog :: pre ++ "-f" :: "" :: post)
  = run_main env (prog :: omit_f (pre ++ "-f" :: "" :: post)).
Proof.
  intros Hhead Hpost. rewrite loop_head_splice in Hhead.
  set (argv := prog :: pre ++ "-f" :: "" :: post).
  assert (Hfile : inputFile (parseArgs argv) = "").
  { unfold argv. rewrite parseArgs_list in *. cbn [tl] in *.
    rewrite parse_list_f_empty by assumption.
    transitivity (inputFile (parse_list initial_Options post));
      [apply inputFile_own; reflexivity | exact Hpost]. }
  assert (E : parseArgs argv
              = parseArgs (prog :: omit_f (pre ++ "-f" :: "" :: post))).
  { apply Options_ext; rewrite ?Hfile; unfold argv;
      rewrite !parseArgs_list; cbn [tl];
      destruct (omit_f_parse (pre ++ "-f" :: "" :: post) initial_Options)
        as (Hk & Ho & Hn & Hf); try congruence.
    rewrite Hf. reflexivity. }
  apply (run_main_parseArgs env) in E.
  assert (Hs : source_of env (parseArgs argv) = Some (cin_contents env))
    by (unfold source_of; rewrite Hfile; reflexivity).
  repeat match goal with |- _ /\ _ => split end;
    [exact Hfile | | | | | exact E];
    unfold final_World; rewrite run_main_eq; unfold run_summary; rewrite Hs;
    destruct (cin_contents env =? "")%string;
      [| destruct (GetCompilationStatus _ =? _)%Z
       | | destruct (GetCompilationStatus _ =? _)%Z
       | | destruct (GetCompilationStatus _ =? _)%Z
       | | destruct (GetCompilationStatus _ =? _)%Z ];
    cbn [snd end_World files_opened cerr_log cin_unread compiler_calls];
    rewrite ?Hfile; try reflexivity; intros path; discriminate.
Qed.

Lemma C9_empty_path_witness :
  files_opened
    (final_World demo_env_piped
       ["glslc"; "-f"; "tri.vert"; "-O"; "-f"; ""; "-n"; "x"]) = [] /\
  map call_source
    (compiler_calls
       (final_World demo_env_piped
          ["glslc"; "-f"; "tri.vert"; "-O"; "-f"; ""; "-n"; "x"]))
  = ["#version 450"] /\
  run_main demo_env_piped ["glslc"; "-f"; "tri.vert"; "-O"; "-f"; ""; "-n"; "x"]
  = run_main demo_env_piped ["glslc"; "-O"; "-n"; "x"].
Proof.
  destruct (C9_empty_path demo_env_piped "glslc" ["-f"; "tri.vert"; "-O"]
              ["-n"; "x"])
    as (_ & H2 & _ & _ & H5 & H6); try reflexivity.
  split; [exact H2|]. split; [|exact H6].
  cbn [app] in H5. rewrite H5. reflexivity.
Defined.

(** C10, as the specification words it, fails in two ways.  A trailing [-t]
    after [-t vertex] leaves the stage at [vertex], not at its default; and
    in [-n -t] the last argument [-t] has no value after it, yet it is not
    ignored: it is the value of [-n], so the run differs from the run
    without it. *)
Lemma C10_counterexample :
  shaderKind (parseArgs ["glslc"; "-t"; "vertex"; "-t"]) = shaderc_vertex_shader /\
  shaderKind initial_Options = shaderc_glsl_infer_from_source /\
  inputName (parseArgs ["glslc"; "-n"; "-t"]) = "-t" /\
  inputName (parseArgs ["glslc"; "-n"]) = "shader" /\
  run_main demo_env ["glslc"; "-n"; "-t"] <> run_main demo_env ["glslc"; "-n"].
Proof.
  repeat match goal with |- _ /\ _ => split end; try reflexivity.
  vm_compute. discriminate.
Qed.

(** C10, amended.  When the last argument is [-t], [-n] or [-f] and the loop
    examines it (it is not itself the value consumed by the flag before it),
    it is ignored without any diagnostic: the parsed options, and with them
    the whole run, are those of the argument list without it, so the option
    it names keeps the value the earlier arguments gave it (its default when
    they gave none). *)
Theorem C10_trailing_flag_ignored (env : Env) (prog : string)
    (pre : list string) (flag : string) :
  takes_value flag = true ->
  loop_head (prog :: pre ++ [flag]) (S (List.length pre)) = true ->
  parseArgs (prog :: pre ++ [flag]) = parseArgs (prog :: pre) /\
  run_main env (prog :: pre ++ [flag]) = run_main env (prog :: pre).
Proof.
  intros Hflag Hhead. rewrite loop_head_splice in Hhead.
  assert (E : parseArgs (prog :: pre ++ [flag]) = parseArgs (prog :: pre)).
  { rewrite !parseArgs_list. cbn [tl]. apply parse_list_trailing; assumption. }
  split; [exact E|]. apply run_main_parseArgs, E.
Qed.

Lemma C10_trailing_flag_ignored_witness :
  parseArgs ["glslc"; "-t"; "vertex"; "-f"]
  = {| shaderKind := shaderc_vertex_shader; optimize := false;
       inputName := "shader"; inputFile := "" |} /\
  run_main demo_env ["glslc"; "-t"; "vertex"; "-f"]
  = run_main demo_env ["glslc"; "-t"; "vertex"].
Proof.
  destruct (C10_trailing_flag_ignored demo_env "glslc" ["-t"; "vertex"] "-f")
    as (H1 & H2); try reflexivity.
  split; [exact H1 | exact H2].
Defined.

(** * Further properties of the parse loop *)

(** Setting [optimize] before the loop or after it comes to the same. *)
Lemma parse_list_set_optimize (l : list string) (o : Options) :
  parse_list (set_optimize o true) l = set_optimize (parse_list o l) true.
Proof.
  apply Options_ext.
  - rewrite (shaderKind_own l (set_optimize o true) o); reflexivity.
  - cbn [set_optimize optimize]. apply optimize_mono. reflexivity.
  - rewrite (inputName_own l (set_optimize o true) o); reflexivity.
  - rewrite (inputFile_own l (set_optimize o true) o); reflexivity.
Qed.

(** A value-taking flag at the end of a complete run leaves it incomplete. *)
Lemma complete_dangling (pre : list string) (flag : string) :
  complete pre = true -> takes_value flag = true ->
  complete (pre ++ [flag]) = false.
Proof.
  intros Hc Hflag.
  induction pre as [|a|a v pre IH IHv] using list_pair_ind.
  - cbn [app complete]. rewrite Hflag. reflexivity.
  - cbn [complete] in Hc. cbn [app complete].
    destruct (takes_value a); [discriminate Hc|].
    rewrite Hflag. reflexivity.
  - cbn [complete] in Hc.
    change ((a :: v :: pre) ++ [flag])%list
      with (a :: v :: (pre ++ [flag]))%list.
    cbn [complete].
    destruct (takes_value a); [apply IH, Hc|].
    change (v :: (pre ++ [flag]))%list with ((v :: pre) ++ [flag])%list.
    apply IHv, Hc.
Qed.

Lemma complete_snoc (pre : list string) (a : string) :
  complete pre = true ->
  complete (pre ++ [a]) = negb (takes_value a).
Proof.
  intros Hc. destruct (takes_value a) eqn:E.
  - apply complete_dangling; assumption.
  - cbn [negb].
    induction pre as [|b|b v pre IH IHv] using list_pair_ind.
    + cbn [app complete]. rewrite E. reflexivity.
    + cbn [complete] in Hc. cbn [app complete].
      destruct (takes_value b); [discriminate Hc|].
      rewrite E. reflexivity.
    + cbn [complete] in Hc.
      change ((b :: v :: pre) ++ [a])%list
        with (b :: v :: (pre ++ [a]))%list.
      cbn [complete].
      destruct (takes_value b); [apply IH, Hc|].
      change (v :: (pre ++ [a]))%list with ((v :: pre) ++ [a])%list.
      apply IHv, Hc.
Qed.

(** X1. The parse loop never looks at [argv[0]]: the options, and the whole
    run, are the same whatever the program name is, even when it spells a
    flag. *)
Theorem X1_program_name_ignored (env : Env) (prog prog' : string)
    (args : list string) :
  loop_head (prog :: args) 0 = false /\
  parseArgs (prog :: args) = parseArgs (prog' :: args) /\
  run_main env (prog :: args) = run_main env (prog' :: args).
Proof.
  assert (E : parseArgs (prog :: args) = parseArgs (prog' :: args))
    by (rewrite !parseArgs_list; reflexivity).
  split; [|split; [exact E | apply run_main_parseArgs, E]].
  destruct (loop_head (prog :: args) 0) eqn:H; [|reflexivity].
  apply loop_head_range in H. lia.
Qed.

(** X2. The parse loop stays inside [argv]: with [length argv - 1]
    iterations or more it stops with [i] equal to [argc] (the [++i] of a
    value-taking flag never carries it past the end), and the options it
    leaves do not depend on how many further iterations are allowed. *)
Theorem X2_parse_loop_ends (fuel : nat) (argv : list string) :
  List.length argv <= S fuel ->
  parse_loop fuel argv (1, initial_Options)
  = (Nat.max 1 (List.length argv), parseArgs argv).
Proof.
  intros H. unfold parseArgs.
  rewrite !parse_loop_list by lia. reflexivity.
Qed.

Lemma X2_parse_loop_ends_witness :
  parse_loop 3 ["glslc"; "-O"; "-n"; "blur"] (1, initial_Options)
  = (4, {| shaderKind := shaderc_glsl_infer_from_source; optimize := true;
           inputName := "blur"; inputFile := "" |}).
Proof.
  apply (X2_parse_loop_ends 3 ["glslc"; "-O"; "-n"; "blur"]).
  simpl. lia.
Defined.

(** X3. Which arguments the loop examines as flags: only indices from 1 to
    [argc - 1]; and after an examined argument the next one is examined
    exactly when the examined one is not [-t], [-n] or [-f] (the value of
    such a flag is never itself examined as a flag). *)
Theorem X3_examined_arguments (argv : list string) (k : nat) :
  loop_head argv k = true ->
  1 <= k < List.length argv /\
  (S k < List.length argv ->
   loop_head argv (S k) = negb (takes_value (arg_at argv k))).
Proof.
  intros Hk. pose proof (loop_head_range argv k Hk) as Hr.
  split; [exact Hr|]. intros Hlen.
  destruct (argv_split argv k Hr) as (prog & pre & post & E & Ek).
  set (a := arg_at argv k) in *. clearbody a.
  subst k argv. rewrite loop_head_splice in Hk.
  destruct post as [|v post].
  { cbn [List.length] in Hlen. rewrite length_app in Hlen.
    cbn [List.length] in Hlen. lia. }
  replace (prog :: pre ++ a :: v :: post)%list
    with (prog :: (pre ++ [a]) ++ v :: post)%list
    by (rewrite <- app_assoc; reflexivity).
  replace (S (S (List.length pre))) with (S (List.length (pre ++ [a])%list))
    by (rewrite length_app; simpl; lia).
  rewrite loop_head_splice. apply complete_snoc, Hk.
Qed.

Lemma X3_examined_arguments_witness :
  loop_head ["glslc"; "-n"; "-O"; "-x"; "-O"] 2 = false /\
  loop_head ["glslc"; "-n"; "-O"; "-x"; "-O"] 4 = true.
Proof.
  destruct (X3_examined_arguments ["glslc"; "-n"; "-O"; "-x"; "-O"] 1)
    as (_ & H1); [reflexivity|].
  destruct (X3_examined_arguments ["glslc"; "-n"; "-O"; "-x"; "-O"] 3)
    as (_ & H3); [reflexivity|].
  split; [apply H1 | apply H3]; simpl; lia.
Defined.

(** X4. The value that follows an examined [-n] or [-f] is stored as the
    input name or the input file, and stays unless a later [-n] or [-f]
    replaces it: with a flag given several times the last one wins. *)
Theorem X4_last_value_wins (prog : string) (pre : list string)
    (flag value : string) (post : list string) :
  loop_head (prog :: pre ++ flag :: value :: post) (S (List.length pre)) = true ->
  ~ In flag post ->
  (flag = "-n" ->
   inputName (parseArgs (prog :: pre ++ flag :: value :: post)) = value) /\
  (flag = "-f" ->
   inputFile (parseArgs (prog :: pre ++ flag :: value :: post)) = value).
Proof.
  intros Hhead Hpost. rewrite loop_head_splice in Hhead.
  rewrite parseArgs_list. cbn [tl].
  split; intros ->.
  - rewrite parse_list_app by assumption.
    rewrite parse_list_cons2. cbn [String.eqb Ascii.eqb Bool.eqb].
    rewrite absent_n by assumption. reflexivity.
  - apply inputFile_given; assumption.
Qed.

Lemma X4_last_value_wins_witness :
  inputName (parseArgs ["glslc"; "-n"; "a"; "-O"; "-n"; "b"; "-t"; "-f"]) = "b".
Proof.
  apply (X4_last_value_wins "glslc" ["-n"; "a"; "-O"] "-n" "b" ["-t"; "-f"]).
  - reflexivity.
  - simpl. intros [E|[E|[]]]; discriminate E.
  - reflexivity.
Defined.

(** X5. An examined [-O] can stand anywhere, and any number of times: the
    options are those of the argument list without it, with [optimize]
    switched on. *)
Theorem X5_O_anywhere (prog : string) (pre post : list string) :
  loop_head (prog :: pre ++ "-O" :: post) (S (List.length pre)) = true ->
  parseArgs (prog :: pre ++ "-O" :: post)
  = set_optimize (parseArgs (prog :: pre ++ post)) true.
Proof.
  intros Hhead. rewrite loop_head_splice in Hhead.
  rewrite !parseArgs_list. cbn [tl].
  rewrite !parse_list_app by assumption.
  rewrite parse_list_O. apply parse_list_set_optimize.
Qed.

Lemma X5_O_anywhere_witness :
  parseArgs ["glslc"; "-t"; "vertex"; "-O"; "-O"; "-n"; "x"]
  = set_optimize (parseArgs ["glslc"; "-t"; "vertex"; "-O"; "-n"; "x"]) true.
Proof.
  apply (X5_O_anywhere "glslc" ["-t"; "vertex"] ["-O"; "-n"; "x"]).
  reflexivity.
Defined.

(** X6. The value that follows an examined [-t], [-n] or [-f] affects only
    the option of that flag: whatever the value is (even the text of
    another flag), [optimize] and the other two options come out the
    same. *)
Theorem X6_value_affects_own_option (prog : string) (pre : list string)
    (flag value value' : string) (post : list string) :
  loop_head (prog :: pre ++ flag :: value :: post) (S (List.length pre)) = true ->
  takes_value flag = true ->
  optimize (parseArgs (prog :: pre ++ flag :: value :: post))
  = optimize (parseArgs (prog :: pre ++ flag :: value' :: post)) /\
  (flag <> "-t" ->
   shaderKind (parseArgs (prog :: pre ++ flag :: value :: post))
   = shaderKind (parseArgs (prog :: pre ++ flag :: value' :: post))) /\
  (flag <> "-n" ->
   inputName (parseArgs (prog :: pre ++ flag :: value :: post))
   = inputName (parseArgs (prog :: pre ++ flag :: value' :: post))) /\
  (flag <> "-f" ->
   inputFile (parseArgs (prog :: pre ++ flag :: value :: post))
   = inputFile (parseArgs (prog :: pre ++ flag :: value' :: post))).
Proof.
  intros Hhead Hflag. rewrite loop_head_splice in Hhead.
  rewrite !parseArgs_list. cbn [tl].
  rewrite !parse_list_app by assumption.
  rewrite !parse_list_cons2.
  apply takes_value_cases in Hflag.
  destruct Hflag as [->|[->| ->]]; cbn [String.eqb Ascii.eqb Bool.eqb];
    repeat match goal with |- _ /\ _ => split end;
    try intros Hne; try (contradiction Hne; reflexivity);
    first [apply optimize_own | apply shaderKind_own
          | apply inputName_own | apply inputFile_own];
    reflexivity.
Qed.

Lemma X6_value_affects_own_option_witness :
  optimize (parseArgs ["glslc"; "-n"; "-O"; "-t"; "vertex"])
  = optimize (parseArgs ["glslc"; "-n"; "blur"; "-t"; "vertex"]).
Proof.
  apply (X6_value_affects_own_option "glslc" [] "-n" "-O" "blur"
           ["-t"; "vertex"]); reflexivity.
Defined.

(** X7. An argument list in which no argument is [-t], [-O], [-n] or [-f]
    leaves every option at its default, and the run is the run without
    arguments. *)
Theorem X7_no_flags_defaults (env : Env) (prog : string) (args : list string) :
  Forall (fun a => recognised a = false) args ->
  parseArgs (prog :: args) = initial_Options /\
  run_main env (prog :: args) = run_main env [prog].
Proof.
  intros H.
  assert (E : parseArgs (prog :: args) = initial_Options).
  { rewrite parseArgs_list. cbn [tl].
    induction H as [|a args Ha _ IH]; [reflexivity|].
    rewrite parse_list_unrecognised by assumption. exact IH. }
  split; [exact E|]. apply run_main_parseArgs. rewrite E. reflexivity.
Qed.

Lemma X7_no_flags_defaults_witness :
  parseArgs ["glslc"; "--help"; "shader.vert"; "-o"; "out.spv"]
  = initial_Options.
Proof.
  apply (X7_no_flags_defaults demo_env "glslc"
           ["--help"; "shader.vert"; "-o"; "out.spv"]).
  repeat constructor.
Defined.

(** * Further properties of a run *)

Lemma vector_bytes_range (bo : ByteOrder) (spirv : list Z) :
  Forall (fun b => 0 <= b < 256)%Z (vector_bytes bo spirv).
Proof.
  induction spirv as [|w spirv IH]; [constructor|].
  change (vector_bytes bo (w :: spirv))
    with (word_bytes bo w ++ vector_bytes bo spirv)%list.
  apply Forall_app. split; [|exact IH].
  destruct bo; repeat constructor; apply word_byte_range.
Qed.

(** Split a run into its four ways of ending. *)
Ltac run_cases env argv :=
  unfold exit_code, final_World, cerr_text, cerr_is_flushed;
  rewrite ?run_main_eq; unfold run_summary;
  destruct (source_of env (parseArgs argv)) as [src|] eqn:Hsrc;
  [ destruct (src =? "")%string eqn:Hempty;
    [ | destruct (GetCompilationStatus
                    (call_result env (call_of (parseArgs argv) src))
                  =? shaderc_compilation_status_success (shaderc env))%Z
          eqn:Hstatus ]
  | ];
  cbn [fst snd end_World cin_unread stdout_bytes cerr_log files_opened
       compiler_calls].

(** X8. The two streams are never mixed and the exit code tells which one
    was used: a run ends either with exit code 0 and nothing sent to the
    diagnostic stream, or with exit code 1, nothing on standard output and
    a diagnostic. *)
Theorem X8_exit_code_and_streams (env : Env) (argv : list string) :
  (exit_code env argv = 0%Z /\ cerr_log (final_World env argv) = []) \/
  (exit_code env argv = 1%Z /\ stdout_bytes (final_World env argv) = [] /\
   cerr_text (final_World env argv) <> "").
Proof.
  run_cases env argv;
    first [ left; split; reflexivity
          | right; split; [reflexivity | split; [reflexivity | discriminate]] ].
Qed.

(** X9. The exit code is 0 exactly when the compiler was called and
    reported success. *)
Theorem X9_exit_zero_iff_success (env : Env) (argv : list string) :
  exit_code env argv = 0%Z <->
  exists call,
    compiler_calls (final_World env argv) = [call] /\
    GetCompilationStatus (call_result env call)
    = shaderc_compilation_status_success (shaderc env).
Proof.
  run_cases env argv; split;
    try discriminate;
    try (intros (call & Hc & Hs); discriminate Hc).
  - intros _. eexists. split; [reflexivity|]. apply Z.eqb_eq, Hstatus.
  - reflexivity.
  - intros (call & Hc & Hs). injection Hc as <-.
    apply Z.eqb_neq in Hstatus. contradiction.
Qed.

(** X10. Whatever the run, nothing is left unflushed on the diagnostic
    stream when [main] returns. *)
Theorem X10_cerr_always_flushed (env : Env) (argv : list string) :
  cerr_is_flushed (final_World env argv) = true.
Proof.
  run_cases env argv; reflexivity.
Qed.

(** X11. The source comes from one place only.  Either no file is named,
    no stream is opened and standard input is read to its end; or a file is
    named, exactly that one path is opened and standard input is left
    untouched (also when the open fails).  The compiler is called at most
    once. *)
Theorem X11_one_source (env : Env) (argv : list string) :
  ((inputFile (parseArgs argv) = "" /\
    files_opened (final_World env argv) = [] /\
    cin_unread (final_World env argv) = "") \/
   (inputFile (parseArgs argv) <> "" /\
    files_opened (final_World env argv) = [inputFile (parseArgs argv)] /\
    cin_unread (final_World env argv) = cin_contents env)) /\
  List.length (compiler_calls (final_World env argv)) <= 1.
Proof.
  split.
  - destruct (inputFile (parseArgs argv) =? "")%string eqn:E.
    + left. split; [apply String.eqb_eq, E|].
      run_cases env argv; rewrite E; split; reflexivity.
    + right. split; [apply String.eqb_neq, E|].
      run_cases env argv; rewrite E; split; reflexivity.
  - run_cases env argv; simpl; lia.
Qed.

(** X12. When the source text obtained (from the opened file, or from
    standard input when no file is named) is not empty, the compiler is
    called exactly once, with that text unchanged, the parsed stage and
    name, and options that carry the performance level exactly when
    [optimize] is set. *)
Theorem X12_compiler_call (env : Env) (argv : list string) (text : string) :
  (inputFile (parseArgs argv) <> "" /\
   ifstream_contents env (inputFile (parseArgs argv)) = Some text) \/
  (inputFile (parseArgs argv) = "" /\ cin_contents env = text) ->
  text <> "" ->
  compiler_calls (final_World env argv)
  = [{| call_source := text;
        call_kind := shaderKind (parseArgs argv);
        call_name := inputName (parseArgs argv);
        call_options :=
          if optimize (parseArgs argv)
          then {| optimization_level :=
                    Some shaderc_optimization_level_performance |}
          else {| optimization_level := None |} |}].
Proof.
  intros H Hne.
  assert (Hs : source_of env (parseArgs argv) = Some text).
  { unfold source_of. destruct H as [[Hf Hc]|[Hf Hc]].
    - apply String.eqb_neq in Hf. rewrite Hf. exact Hc.
    - rewrite Hf, Hc. reflexivity. }
  apply String.eqb_neq in Hne.
  run_cases env argv; try discriminate Hs;
    injection Hs as ->; try congruence; reflexivity.
Qed.

Lemma X12_compiler_call_witness :
  compiler_calls
    (final_World demo_env ["glslc"; "-f"; "tri.vert"; "-t"; "vertex"; "-O"])
  = [{| call_source := "void main(){}";
        call_kind := shaderc_vertex_shader;
        call_name := "shader";
        call_options :=
          {| optimization_level :=
               Some shaderc_optimization_level_performance |} |}].
Proof.
  apply (X12_compiler_call demo_env
           ["glslc"; "-f"; "tri.vert"; "-t"; "vertex"; "-O"] "void main(){}").
  - left. split; [vm_compute; discriminate | reflexivity].
  - discriminate.
Defined.

(** X13. The run does not depend on the platform: with [_WIN32] defined
    (standard output starts in text mode and is switched to binary) or not,
    the exit code, the bytes written and everything else are the same. *)
Theorem X13_platform_independent (bo : ByteOrder)
    (files : string -> option string) (input : string) (lib : Shaderc)
    (argv : list string) :
  run_main {| _WIN32 := true; byte_order := bo; ifstream_contents := files;
              cin_contents := input; shaderc := lib |} argv
  = run_main {| _WIN32 := false; byte_order := bo; ifstream_contents := files;
                cin_contents := input; shaderc := lib |} argv.
Proof.
  rewrite !run_main_eq. reflexivity.
Qed.

(** X14. What is written on success can be read back: every element of
    standard output is a byte, and when the words are 32-bit values, taking
    the bytes four at a time in the machine's byte order gives back exactly
    the words of the compiled module. *)
Theorem X14_stdout_round_trip (env : Env) (argv : list string)
    (call : CompileCall) :
  In call (compiler_calls (final_World env argv)) ->
  GetCompilationStatus (call_result env call)
  = shaderc_compilation_status_success (shaderc env) ->
  Forall (fun w => 0 <= w < 4294967296)%Z (spirv_words (call_result env call)) ->
  Forall (fun b => 0 <= b < 256)%Z (stdout_bytes (final_World env argv)) /\
  words_of_bytes (byte_order env) (stdout_bytes (final_World env argv))
  = spirv_words (call_result env call).
Proof.
  run_cases env argv; cbn [In]; try tauto; intros [<-|[]] Hs Hw.
  - split; [apply vector_bytes_range | apply words_of_vector_bytes, Hw].
  - apply Z.eqb_neq in Hstatus. contradiction.
Qed.

Lemma X14_stdout_round_trip_witness :
  words_of_bytes LittleEndian
    (stdout_bytes (final_World demo_env ["glslc"; "-f"; "tri.vert"]))
  = [119734787; 65536; 10]%Z.
Proof.
  apply (X14_stdout_round_trip demo_env ["glslc"; "-f"; "tri.vert"]
           (call_of initial_Options "void main(){}")).
  - vm_compute. left. reflexivity.
  - reflexivity.
  - repeat constructor; vm_compute; discriminate.
Defined.

(** X15. The order of different options does not matter: two examined
    flag-value pairs that stand next to each other and have different flags
    among [-t], [-n], [-f] can be exchanged without changing the parsed
    options or the run. *)
Theorem X15_different_flags_commute (env : Env) (prog : string)
    (pre : list string) (f1 v1 f2 v2 : string) (post : list string) :
  loop_head (prog :: pre ++ f1 :: v1 :: f2 :: v2 :: post)
    (S (List.length pre)) = true ->
  takes_value f1 = true -> takes_value f2 = true -> f1 <> f2 ->
  parseArgs (prog :: pre ++ f1 :: v1 :: f2 :: v2 :: post)
  = parseArgs (prog :: pre ++ f2 :: v2 :: f1 :: v1 :: post) /\
  run_main env (prog :: pre ++ f1 :: v1 :: f2 :: v2 :: post)
  = run_main env (prog :: pre ++ f2 :: v2 :: f1 :: v1 :: post).
Proof.
  intros Hhead H1 H2 Hne. rewrite loop_head_splice in Hhead.
  assert (E : parseArgs (prog :: pre ++ f1 :: v1 :: f2 :: v2 :: post)
              = parseArgs (prog :: pre ++ f2 :: v2 :: f1 :: v1 :: post)).
  { rewrite !parseArgs_list. cbn [tl].
    rewrite !parse_list_app by assumption.
    set (o := parse_list initial_Options pre). clearbody o.
    apply takes_value_cases in H1. apply takes_value_cases in H2.
    destruct H1 as [->|[->| ->]]; destruct H2 as [->|[->| ->]];
      try (contradiction Hne; reflexivity);
      do 2 (rewrite (parse_list_cons2 _ _ _ (_ :: _ :: post));
            cbn [String.eqb Ascii.eqb Bool.eqb]);
      do 2 (rewrite (parse_list_cons2 _ _ _ post);
            cbn [String.eqb Ascii.eqb Bool.eqb]);
      reflexivity. }
  split; [exact E | apply run_main_parseArgs, E].
Qed.

Lemma X15_different_flags_commute_witness :
  parseArgs ["glslc"; "-O"; "-n"; "blur"; "-f"; "tri.vert"; "-t"; "vertex"]
  = parseArgs ["glslc"; "-O"; "-f"; "tri.vert"; "-n"; "blur"; "-t"; "vertex"].
Proof.
  apply (X15_different_flags_commute demo_env "glslc" ["-O"]
           "-n" "blur" "-f" "tri.vert" ["-t"; "vertex"]);
    try reflexivity.
  discriminate.
Defined.
